(** * ncd2023: the stateful point accumulator and the feature-flag readers

    A shallow embedding of the two Go programs of the repository:

    - package [stateful]: [addPoint] (one transaction per operation) and
      [startBgWorker] / [addPointStateful] (one transaction per batch);
    - package [singleflight]: [ensureFeatureActive] and its coalescing and
      snapshot-cache variants.

    Go's [int64] is a [Z] with the wrap-around of [+] written out, Go maps
    are [gmap]s, slices are lists, channels are lists of pending values or
    a log of sends. *)

From stdpp Require Import gmap strings list fin_maps.
From Stdlib Require Import ZArith Lia.

#[local] Set Warnings "-clear-no-such-hyp".

Local Open Scope Z_scope.

(** ** Go's [int64] *)

Module Int64.

Definition min_int : Z := - 2 ^ 63.
Definition max_int : Z := 2 ^ 63 - 1.

Definition in_range (z : Z) : Prop := min_int <= z <= max_int.

(** Two's-complement reduction of an integer to 64 bits. *)
Definition wrap (z : Z) : Z := (z + 2 ^ 63) mod 2 ^ 64 - 2 ^ 63.

(** [a + b] on [int64] operands. *)
Definition add (a b : Z) : Z := wrap (a + b).

End Int64.

(** ** The stateful package *)

Module Stateful.

(** [errors.New("insufficient balance")] and the errors of the store. A
    store error names the call that failed. *)
Inductive store_call := CallRead | CallInsertTx | CallUpsert | CallCommit.

Inductive error :=
| ErrInsufficientBalance
| ErrStore (c : store_call).

(** [type callback struct { err error }]; [None] is Go's [nil]. *)
Record callback := Callback { err : option error }.

(** [type op struct { userID string; amount int64; done chan<- callback }].
    A channel is named by the number [make] gave it. *)
Record op := Op { userID : string; amount : Z; done : nat }.

(** [type txLog struct { txID string; userID string; amount int64 }];
    the same row shape is used for the [point_txs] table. *)
Record txLog := TxLog { txID : nat; tx_userID : string; tx_amount : Z }.

(** The two tables: [user_points] keyed by [user_id], and the rows of
    [point_txs] in insertion order. *)
Record Store := MkStore {
  user_points : gmap string Z;
  point_txs : list txLog
}.

Definition empty_store : Store := MkStore ∅ [].

(** *** The failures of the store

    The database is outside the program. What a transaction sees of it
    is which of its calls fails, if any: [None] is a transaction all of
    whose calls succeed. *)
Definition fault := option store_call.

Definition store_call_eqb (a b : store_call) : bool :=
  match a, b with
  | CallRead, CallRead | CallInsertTx, CallInsertTx
  | CallUpsert, CallUpsert | CallCommit, CallCommit => true
  | _, _ => false
  end.

Definition fails (f : fault) (c : store_call) : bool :=
  match f with
  | Some c' => store_call_eqb c' c
  | None => false
  end.

(** *** The process

    [db] is the committed database. [opChan] is the package-level
    channel, with the oldest element first. [buff], [callbacks] and
    [txLogs] are the slices of [startBgWorker]; [running] says that its
    loop has not returned. [sent] logs every send on a [done] channel, in
    order. [next_chan] counts the channels made by [addPointStateful] and
    [next_uuid] the identifiers drawn from [uuid.NewString]. *)
Record world := World {
  db : Store;
  opChan : list op;
  buff : list op;
  callbacks : list callback;
  txLogs : list txLog;
  running : bool;
  sent : list (nat * callback);
  next_chan : nat;
  next_uuid : nat
}.

Definition set_db (s : Store) (w : world) : world :=
  World s (opChan w) (buff w) (callbacks w) (txLogs w) (running w)
        (sent w) (next_chan w) (next_uuid w).
Definition set_opChan (q : list op) (w : world) : world :=
  World (db w) q (buff w) (callbacks w) (txLogs w) (running w)
        (sent w) (next_chan w) (next_uuid w).
Definition set_buff (b : list op) (w : world) : world :=
  World (db w) (opChan w) b (callbacks w) (txLogs w) (running w)
        (sent w) (next_chan w) (next_uuid w).
Definition set_callbacks (c : list callback) (w : world) : world :=
  World (db w) (opChan w) (buff w) c (txLogs w) (running w)
        (sent w) (next_chan w) (next_uuid w).
Definition set_txLogs (l : list txLog) (w : world) : world :=
  World (db w) (opChan w) (buff w) (callbacks w) l (running w)
        (sent w) (next_chan w) (next_uuid w).
Definition set_running (r : bool) (w : world) : world :=
  World (db w) (opChan w) (buff w) (callbacks w) (txLogs w) r
        (sent w) (next_chan w) (next_uuid w).
Definition set_sent (l : list (nat * callback)) (w : world) : world :=
  World (db w) (opChan w) (buff w) (callbacks w) (txLogs w) (running w)
        l (next_chan w) (next_uuid w).
Definition set_next_chan (n : nat) (w : world) : world :=
  World (db w) (opChan w) (buff w) (callbacks w) (txLogs w) (running w)
        (sent w) n (next_uuid w).
Definition set_next_uuid (n : nat) (w : world) : world :=
  World (db w) (opChan w) (buff w) (callbacks w) (txLogs w) (running w)
        (sent w) (next_chan w) n.

(** The tables as [main] leaves them after [truncate], no operation
    submitted, the worker started. *)
Definition init : world := World empty_store [] [] [] [] true [] 0 0.

(** *** Code that runs against the store

    A computation reads and writes the process and either returns a value
    or an [error]; what it did to the process before the error stays done
    (Go has no rollback of variables). *)
Definition Tx (A : Type) : Type := world → world * (error + A).

#[export] Instance Tx_ret : MRet Tx := λ A a w, (w, inr a).
#[export] Instance Tx_bind : MBind Tx := λ A B k m w,
  match m w with
  | (w', inl e) => (w', inl e)
  | (w', inr a) => k a w'
  end.

Definition throw {A} (e : error) : Tx A := λ w, (w, inl e).
Definition get : Tx world := λ w, (w, inr w).
Definition modify (g : world → world) : Tx unit := λ w, (g w, inr tt).

(** One store call [c]: it fails when the transaction's fault is [c]. *)
Definition call (f : fault) (c : store_call) : Tx unit :=
  if fails f c then throw (ErrStore c) else mret tt.

(** [pgctx.RunInTx] for a body whose statements use the [ctx] that the
    body is given, as in [addPoint]: the body runs on the transaction's view
    of the database; an error of the body, or of the commit, rolls the
    database back. Every transaction is serializable, so a transaction is
    one atomic step on [db]. A body that the library runs again after a
    retryable error behaves as a failed [RunInTx] followed by a new one. *)
Definition RunInTx {A} (f : fault) (body : Tx A) : Tx A := λ w,
  match body w with
  | (w', inl e) => (set_db (db w) w', inl e)
  | (w', inr a) =>
      if fails f CallCommit
      then (set_db (db w) w', inl (ErrStore CallCommit))
      else (w', inr a)
  end.

(** *** [addPoint]: one transaction per operation *)

(** [select balance from user_points where user_id = $1], scanned into
    [var balance int64]: with [sql.ErrNoRows] the variable keeps its zero
    value and the error is dropped. *)
Definition queryBalance (f : fault) (userID : string) : Tx Z :=
  call f CallRead;;
  w ← get;
  mret (default 0 (user_points (db w) !! userID)).

(** [insert into user_points ... on conflict (user_id) do update]. *)
Definition upsertBalance (f : fault) (userID : string) (balance : Z) : Tx unit :=
  call f CallUpsert;;
  modify (λ w, set_db (MkStore (<[userID := balance]> (user_points (db w)))
                               (point_txs (db w))) w).

(** [uuid.NewString()]. *)
Definition newUUID : Tx nat := λ w,
  (set_next_uuid (S (next_uuid w)) w, inr (next_uuid w)).

(** [insert into point_txs (id, user_id, amount)]. *)
Definition insertTx (f : fault) (userID : string) (amount : Z) : Tx unit :=
  id ← newUUID;
  call f CallInsertTx;;
  modify (λ w, set_db (MkStore (user_points (db w))
                               (point_txs (db w) ++ [TxLog id userID amount])) w).

Definition addPoint (f : fault) (userID : string) (amount : Z) : Tx unit :=
  RunInTx f (
    balance ← queryBalance f userID;
    let balance := Int64.add balance amount in
    if balance <? 0 then throw ErrInsufficientBalance
    else
      upsertBalance f userID balance;;
      insertTx f userID amount).

(** *** [startBgWorker]: one transaction per batch *)

Definition buffSize : Z := 7000.
Definition opChanCap : Z := 20000.

(** [select user_id, balance from user_points where user_id = any($1)],
    each row stored with [m[userID] = balance]. *)
Definition selectBalances (t : gmap string Z) (keys : list string)
    : gmap string Z :=
  foldr (λ k m, match t !! k with
                | Some balance => <[k := balance]> m
                | None => m
                end) ∅ keys.

(** [restoreState]: with no key the store is not called. *)
Definition restoreState (f : fault) (keys : list string) : Tx (gmap string Z) :=
  if (Z.of_nat (length keys) =? 0) then mret ∅
  else
    call f CallRead;;
    w ← get;
    mret (selectBalances (user_points (db w)) keys).

(** [batchInsertTxLogs]: appends the slice [txLogs] to [point_txs] in one
    statement; with an empty slice the store is not called. *)
Definition batchInsertTxLogs (f : fault) : Tx unit :=
  w ← get;
  if (Z.of_nat (length (txLogs w)) =? 0) then mret tt
  else
    call f CallInsertTx;;
    modify (λ w, set_db (MkStore (user_points (db w))
                                 (point_txs (db w) ++ txLogs w)) w).

(** The rows that [saveDirtyState] upserts: [state[userID]] for every
    [userID] of [dirty] (a Go map read, so [0] for a missing key). *)
Definition upsertAll (state : gmap string Z) (users : list string)
    (t : gmap string Z) : gmap string Z :=
  foldr (λ u t, <[u := default 0 (state !! u)]> t) t users.

(** [saveDirtyState]: with an empty [dirty] the store is not called. *)
Definition saveDirtyState (f : fault) (state : gmap string Z)
    (dirty : gset string) : Tx unit :=
  if (Z.of_nat (size dirty) =? 0) then mret tt
  else
    call f CallUpsert;;
    modify (λ w, set_db (MkStore (upsertAll state (elements dirty)
                                            (user_points (db w)))
                                 (point_txs (db w))) w).

(** The variables that the loop over [buff] inside the transaction reads
    and writes: the locals [state] and [dirty], the slices [txLogs] and
    [callbacks], and the identifier source. *)
Record batch := Batch {
  state : gmap string Z;
  dirty : gset string;
  b_txLogs : list txLog;
  b_callbacks : list callback;
  b_uuid : nat
}.

(** [balance := state[p.userID]; balance += p.amount]. *)
Definition new_balance (b : batch) (p : op) : Z :=
  Int64.add (default 0 (state b !! userID p)) (amount p).

(** The body of [for _, p := range buff]. *)
Definition apply_op (b : batch) (p : op) : batch :=
  let balance := new_balance b p in
  if balance <? 0 then
    Batch (state b) (dirty b) (b_txLogs b)
          (b_callbacks b ++ [Callback (Some ErrInsufficientBalance)])
          (b_uuid b)
  else
    Batch (<[userID p := balance]> (state b))
          ({[userID p]} ∪ dirty b)
          (b_txLogs b ++ [TxLog (b_uuid b) (userID p) (amount p)])
          (b_callbacks b ++ [Callback None])
          (S (b_uuid b)).

Definition apply_ops (b : batch) (ps : list op) : batch := foldl apply_op b ps.

(** The function passed to [RunInTx] by [flush]. The loop starts from the
    balances read, an empty [dirty], and [txLogs] and [callbacks] cut to
    length zero. *)
Definition flush_body (f : fault) (restoreUserIDs : list string) : Tx unit :=
  restored ← restoreState f restoreUserIDs;
  w ← get;
  let b := apply_ops (Batch restored ∅ [] [] (next_uuid w)) (buff w) in
  modify (λ w, set_next_uuid (b_uuid b)
                 (set_callbacks (b_callbacks b) (set_txLogs (b_txLogs b) w)));;
  batchInsertTxLogs f;;
  saveDirtyState f (state b) (dirty b).

(** [for i, p := range buff { p.done <- callbacks[i] }], from index [i]
    on. A [done] channel has capacity 1 and is sent to at most once (proved
    below), so a send never blocks and is logged in [sent]. The second
    component is [false] when [callbacks[i]] is out of range, where Go
    panics. *)
Fixpoint send_callbacks (i : nat) (ps : list op) (cbs : list callback)
    (log : list (nat * callback)) : list (nat * callback) * bool :=
  match ps with
  | [] => (log, true)
  | p :: ps' =>
      match cbs !! i with
      | Some cb => send_callbacks (S i) ps' cbs (log ++ [(done p, cb)])
      | None => (log, false)
      end
  end.

(** [pgctx.RunInTx(ctx, func(ctx context.Context) error { ... })] in
    [flush]. [restoreState], [batchInsertTxLogs] and [saveDirtyState] are
    closures of [startBgWorker] and use its [ctx], which carries the
    database and no transaction, not the [ctx] that [RunInTx] hands to the
    body. Their statements therefore run on the database one by one, each
    committed on its own, and what they wrote stays when a later statement
    or the commit fails; the transaction that [RunInTx] opens is empty, and
    its commit can still fail. The statements of one flush are taken to run
    with no transaction of [addPoint] in between, as in [main], which runs
    the two load tests one after the other. *)
Definition flush_tx (f : fault) : Tx unit := λ w,
  match flush_body f (map userID (buff w)) w with
  | (w', inl e) => (w', inl e)
  | (w', inr a) =>
      if fails f CallCommit then (w', inl (ErrStore CallCommit)) else (w', inr a)
  end.

(** [flush]. A panic stops the process: the worker no longer runs. *)
Definition flush (f : fault) (w : world) : world :=
  if (Z.of_nat (length (buff w)) =? 0) then w
  else
    match flush_tx f w with
    | (w', inl _) => w'
    | (w', inr _) =>
        match send_callbacks 0 (buff w') (callbacks w') (sent w') with
        | (log, true) => set_buff [] (set_sent log w')
        | (log, false) => set_running false (set_sent log w')
        end
    end.

(** [addPointStateful] up to its send on [opChan]: a new [done] channel,
    the operation queued. On a full [opChan] the producer blocks: the
    event does not happen. The producer then waits on [done]. *)
Definition submit (userID : string) (amount : Z) (w : world) : world :=
  if (opChanCap <=? Z.of_nat (length (opChan w))) then w
  else set_next_chan (S (next_chan w))
         (set_opChan (opChan w ++ [Op userID amount (next_chan w)]) w).

(** What can happen next: a producer runs [addPoint]; a producer enters
    [addPointStateful]; the worker's [select] takes one of its three
    cases. The fault says how the store behaves in the transaction that
    the event may run. *)
Inductive event :=
| EvAddPoint (f : fault) (userID : string) (amount : Z)
| EvSubmit (userID : string) (amount : Z)
| EvDone
| EvTimer (f : fault)
| EvRecv (f : fault).

Definition step (w : world) (e : event) : world :=
  match e with
  | EvAddPoint f userID amount => (addPoint f userID amount w).1
  | EvSubmit userID amount => submit userID amount w
  | EvDone => if running w then set_running false w else w
  | EvTimer f => if running w then flush f w else w
  | EvRecv f =>
      if running w then
        match opChan w with
        | [] => w
        | p :: rest =>
            let w' := set_buff (buff w ++ [p]) (set_opChan rest w) in
            if (buffSize <=? Z.of_nat (length (buff w'))) then flush f w' else w'
        end
      else w
  end.

Definition run (w : world) (evs : list event) : world := foldl step w evs.

(** Number of sends logged on the channel [h]. *)
Definition sends_on (h : nat) (w : world) : nat :=
  length (filter (λ x, x.1 = h) (sent w)).

(** Sum of [amount] over the rows of [userID] in [point_txs]. *)
Definition ledger_sum (u : string) (l : list txLog) : Z :=
  foldr (λ t acc, if decide (tx_userID t = u) then tx_amount t + acc else acc) 0 l.

(** The stored balance, [0] for a user without a row. *)
Definition balance_of (u : string) (s : Store) : Z :=
  default 0 (user_points s !! u).

(** *** Notions used to state the properties *)

(** The variables of the loop when [flush_body] enters it, and the batch
    that the loop computes from them. *)
Definition initial_batch (w : world) : batch :=
  Batch (selectBalances (user_points (db w)) (map userID (buff w)))
        ∅ [] [] (next_uuid w).

Definition batch_of (w : world) : batch := apply_ops (initial_batch w) (buff w).

(** The process after the loop of [flush_body], before the two writes. *)
Definition after_loop (w : world) : world :=
  let b := batch_of w in
  set_next_uuid (b_uuid b) (set_callbacks (b_callbacks b) (set_txLogs (b_txLogs b) w)).

(** Every stored balance is an [int64] that is not negative. *)
Definition balances_valid (t : gmap string Z) : Prop :=
  ∀ u v, t !! u = Some v → 0 <= v <= Int64.max_int.

(** Every user's ledger rows add up to the stored balance. *)
Definition ledger_consistent (s : Store) : Prop :=
  ∀ u, ledger_sum u (point_txs s) = balance_of u s.

(** The loop keeps the in-memory balances equal to the balances read,
    plus the amounts of the rows recorded so far; only dirty users have
    rows. [base] is the balance read for each user. *)
Definition batch_inv (base : string → Z) (b : batch) : Prop :=
  balances_valid (state b) ∧
  (∀ u, default 0 (state b !! u) = base u + ledger_sum u (b_txLogs b)) ∧
  (∀ u, u ∉ dirty b → ledger_sum u (b_txLogs b) = 0).

(** The handles of the operations that wait in [opChan] or in [buff],
    and the handles that a callback was sent on. *)
Definition pending (w : world) : list nat := map done (opChan w ++ buff w).
Definition answered (w : world) : list nat := (sent w).*1.

Definition occurrences (h : nat) (l : list nat) : nat :=
  length (filter (λ x, x = h) l).

(** Every handle made so far is pending or answered, once in all. *)
Definition handles_inv (w : world) : Prop :=
  answered w ++ pending w ≡ₚ seq 0 (next_chan w).

(** The amounts of the operations in flight and of the events are
    [int64] values. *)
Definition amounts_ok (w : world) : Prop :=
  Forall (λ p, Int64.in_range (amount p)) (opChan w ++ buff w).

Definition event_ok (e : event) : Prop :=
  match e with
  | EvAddPoint _ _ a | EvSubmit _ a => Int64.in_range a
  | _ => True
  end.

Definition tables_inv (w : world) : Prop :=
  balances_valid (user_points (db w)) ∧ ledger_consistent (db w) ∧ amounts_ok w.

(** One operation buffered, and the commit of its flush failing. *)
Definition one_buffered : world := run init [EvSubmit "u" 50; EvRecv None].

(** An operation buffered when the worker takes the [ctx.Done()] case. *)
Definition abandoned : world :=
  run init [EvSubmit "u" 50; EvRecv None; EvDone].

(** A user credited on both paths and then debited to zero. *)
Definition both_paths : list event :=
  [EvAddPoint None "u" 30; EvSubmit "u" 12; EvSubmit "v" (-1);
   EvSubmit "u" (-42); EvRecv None; EvRecv None; EvRecv None;
   EvTimer (Some CallUpsert); EvTimer None].

(** The callback that the loop records for [p]. *)
Definition verdict (b : batch) (p : op) : callback :=
  if new_balance b p <? 0 then Callback (Some ErrInsufficientBalance)
  else Callback None.

(** A balance of 30 for ["u"], then two debits of 20 buffered. *)
Definition two_debits : world :=
  run init [EvAddPoint None "u" 30; EvSubmit "u" (-20); EvSubmit "u" (-20);
            EvRecv None; EvRecv None].

(** A balance of 30 for ["u"]; a zero-amount operation and a debit of 30
    buffered. *)
Definition zero_then_debit : world :=
  run init [EvAddPoint None "u" 30; EvSubmit "u" 0; EvSubmit "u" (-30);
            EvRecv None; EvRecv None].

(** *** Notions used to state further properties *)

(** The handles in the order of the pipeline: answered, then buffered,
    then queued. *)
Definition pipeline (w : world) : list nat :=
  answered w ++ map done (buff w) ++ map done (opChan w).

(** The store fails in none of the worker's transactions. *)
Definition healthy (e : event) : Prop :=
  match e with
  | EvTimer f | EvRecv f => f = None
  | _ => True
  end.

(** The worker receives everything that is queued, then its timer fires,
    with a store that does not fail. *)
Definition drain (w : world) : list event :=
  replicate (length (opChan w)) (EvRecv None) ++ [EvTimer None].

(** A callback without error. *)
Definition is_ok (cb : callback) : bool :=
  match err cb with
  | None => true
  | Some _ => false
  end.

(** The operations of a buffer whose callback carries no error, in buffer
    order. *)
Definition accepted (ps : list op) (cbs : list callback) : list op :=
  (filter (λ pc, is_ok pc.2) (zip ps cbs)).*1.

(** User and amount of a ledger row, and of an operation. *)
Definition tx_row (t : txLog) : string * Z := (tx_userID t, tx_amount t).
Definition op_row (p : op) : string * Z := (userID p, amount p).

(** Sum of the amounts of the operations of [u]. *)
Definition credited (u : string) (ps : list op) : Z :=
  foldr (λ p acc, if decide (userID p = u) then amount p + acc else acc) 0 ps.

(** No two rows of [point_txs] share an identifier, and every identifier
    in the table was drawn from the source. *)
Definition uuid_inv (w : world) : Prop :=
  NoDup (txID <$> point_txs (db w)) ∧
  ∀ i, i ∈ txID <$> point_txs (db w) → (i < next_uuid w)%nat.

(** The store fails, if at all, before the flush has written anything:
    at the read or at the bulk insert. *)
Definition early (f : fault) : Prop :=
  fails f CallUpsert = false ∧ fails f CallCommit = false.

Definition event_early (e : event) : Prop :=
  match e with
  | EvTimer f | EvRecv f => early f
  | _ => True
  end.

(** Two batches that differ at most in the identifiers they drew. *)
Definition same_rows (b b' : batch) : Prop :=
  state b = state b' ∧ dirty b = dirty b' ∧ b_callbacks b = b_callbacks b' ∧
  tx_row <$> b_txLogs b = tx_row <$> b_txLogs b'.

(** [printBenchResult], the numbers it prints after the duration:
    [operations], [errors] and [op/s]. [opCnt] and [errCnt] are [uint64]
    counters and [diff] is a [time.Duration], an [int64] of nanoseconds.
    [diff/time.Second] is an [int64] division, converted to [uint64]; the
    last component is [None] when the [uint64] division by it panics. *)
Definition printBenchResult (opCnt errCnt diff : Z) : Z * Z * option Z :=
  let seconds := (Z.quot diff 1000000000) mod 2 ^ 64 in
  (opCnt, errCnt,
   if seconds =? 0 then None else Some (((opCnt + errCnt) mod 2 ^ 64) / seconds)).

(** Sums of amounts: of the rows of a ledger, of a list of operations,
    and the amount that an event offers. *)
Definition total (l : list txLog) : Z := foldr (λ t acc, tx_amount t + acc) 0 l.
Definition queued (ps : list op) : Z := foldr (λ p acc, amount p + acc) 0 ps.

Definition offered (e : event) : Z :=
  match e with
  | EvAddPoint _ _ a | EvSubmit _ a => a
  | _ => 0
  end.

Definition offered_sum (evs : list event) : Z :=
  foldr (λ e acc, offered e + acc) 0 evs.

(** A process that has only seen credits whose sum is at most [B]: no
    amount in the tables or in flight is negative, all of them together
    are at most [B], and every callback sent so far is [nil]. *)
Definition credit_inv (B : Z) (w : world) : Prop :=
  tables_inv w ∧
  Forall (λ p, 0 <= amount p) (opChan w ++ buff w) ∧
  Forall (λ t, 0 <= tx_amount t) (point_txs (db w)) ∧
  total (point_txs (db w)) + queued (opChan w ++ buff w) <= B ∧
  Forall (λ hc, hc.2 = Callback None) (sent w).

End Stateful.

(** ** The singleflight package *)

Module Singleflight.

(** [var featureInactive = errors.New("feature is not active")], and the
    errors that the database driver returns. *)
Inductive error :=
| featureInactive
| StoreError (msg : string).

(** [err.Error()]. *)
Definition Error (e : error) : string :=
  match e with
  | featureInactive => "feature is not active"
  | StoreError msg => msg
  end.

(** [errors.Is(err, target)] for errors that wrap nothing. *)
Definition errors_Is (err : option error) (target : error) : bool :=
  match err, target with
  | Some featureInactive, featureInactive => true
  | Some (StoreError a), StoreError b => bool_decide (a = b)
  | _, _ => false
  end.

(** *** What the store answers

    The database is outside the program; a function that queries it takes
    the answer as an argument. [row_result] answers
    [QueryRow(...).Scan(&active)]; [query_result] answers the query of
    [pgctx.Iter]: the query fails, or it yields rows, each of which scans or
    fails to scan, and then the error of [rows.Err()]. *)
Inductive row_result :=
| Row (active : bool)
| ErrNoRows
| RowError (msg : string).

Inductive scan_result :=
| Scanned (name : string) (active : bool)
| ScanError (msg : string).

Inductive query_result :=
| QueryError (msg : string)
| Rows (rows : list scan_result) (rows_err : option string).

(** *** The process

    [featureActiveCache] is the map [featureActiveCache.m] ([nil] and the
    empty map read alike); its lock is held for single reads and writes of
    the field only, so each is one step. [queries] counts the queries sent
    to the store and [logged] is what [log.Printf] wrote. [refreshing] says
    that the goroutine of [startUpdateFeatureActiveCache] runs. *)
Record world := World {
  featureActiveCache : gmap string bool;
  queries : nat;
  logged : list error;
  refreshing : bool
}.

Definition init : world := World ∅ 0 [] false.

(** [isFeatureActive]. *)
Definition isFeatureActive (r : row_result) (w : world)
    : world * (bool * option error) :=
  let w' := World (featureActiveCache w) (S (queries w)) (logged w) (refreshing w) in
  match r with
  | ErrNoRows => (w', (false, None))
  | RowError msg => (w', (false, Some (StoreError msg)))
  | Row active => (w', (active, None))
  end.

(** [ensureFeatureActive]. *)
Definition ensureFeatureActive (r : row_result) (w : world) : world * option error :=
  let '(w', (active, err)) := isFeatureActive r w in
  match err with
  | Some e => (w', Some e)
  | None => if negb active then (w', Some featureInactive) else (w', None)
  end.

(** What [ensureFeatureActiveWithSingleFlight] does with the value and the
    error that [featureActiveSF.Do] hands back. *)
Definition afterDo (res : bool * option error) : option error :=
  match res.2 with
  | Some e => Some e
  | None => if negb res.1 then Some featureInactive else None
  end.

(** [pgctx.Iter]: the iterator runs on every row in turn, its first error
    ends the loop and is returned; after the last row the error of the rows
    is returned. [m] is the variable that the iterator writes. *)
Fixpoint iter_rows {M} (rows : list scan_result)
    (iter : scan_result → M → M * option error) (m : M) : M * option error :=
  match rows with
  | [] => (m, None)
  | r :: rest =>
      match iter r m with
      | (m', Some e) => (m', Some e)
      | (m', None) => iter_rows rest iter m'
      end
  end.

Definition Iter {M} (q : query_result)
    (iter : scan_result → M → M * option error) (m : M) : M * option error :=
  match q with
  | QueryError msg => (m, Some (StoreError msg))
  | Rows rows rows_err =>
      match iter_rows rows iter m with
      | (m', Some e) => (m', Some e)
      | (m', None) => (m', StoreError <$> rows_err)
      end
  end.

(** The iterator of [updateFeatureActiveCache]:
    [err := scan(&name, &active); if err != nil { return err }; m[name] = active]. *)
Definition scan_feature (r : scan_result) (m : gmap string bool)
    : gmap string bool * option error :=
  match r with
  | ScanError msg => (m, Some (StoreError msg))
  | Scanned name active => (<[name := active]> m, None)
  end.

(** [updateFeatureActiveCache]. *)
Definition updateFeatureActiveCache (q : query_result) (w : world)
    : world * option error :=
  let w1 := World (featureActiveCache w) (S (queries w)) (logged w) (refreshing w) in
  match Iter q scan_feature ∅ with
  | (_, Some e) => (w1, Some e)
  | (m, None) => (World m (queries w1) (logged w1) (refreshing w1), None)
  end.

(** The body of [case <-time.After(2 * time.Second)] in the goroutine of
    [startUpdateFeatureActiveCache]: the error is logged and dropped. *)
Definition refresh_tick (q : query_result) (w : world) : world :=
  match updateFeatureActiveCache q w with
  | (w', Some e) =>
      World (featureActiveCache w') (queries w') (logged w' ++ [e]) (refreshing w')
  | (w', None) => w'
  end.

(** [startUpdateFeatureActiveCache]: the first update, then the goroutine. *)
Definition startUpdateFeatureActiveCache (q : query_result) (w : world)
    : world * option error :=
  match updateFeatureActiveCache q w with
  | (w', Some e) => (w', Some e)
  | (w', None) =>
      (World (featureActiveCache w') (queries w') (logged w') true, None)
  end.

(** What the goroutine does next: a tick with the store's answer, or
    [ctx.Done()]. *)
Inductive refresh_event :=
| Tick (q : query_result)
| CtxDone.

Definition refresh_step (w : world) (e : refresh_event) : world :=
  if refreshing w then
    match e with
    | Tick q => refresh_tick q w
    | CtxDone => World (featureActiveCache w) (queries w) (logged w) false
    end
  else w.

(** [ensureFeatureActiveWithCache]: [active := featureActiveCache.m[feature]]
    is a Go map read, [false] for a missing key. *)
Definition ensureFeatureActiveWithCache (feature : string) (w : world)
    : world * option error :=
  let active := default false (featureActiveCache w !! feature) in
  if negb active then (w, Some featureInactive) else (w, None).

(** What a handler writes: a body with status 200, or [http.Error] with
    status 500. *)
Inductive response :=
| Body (text : string)
| InternalServerError (text : string).

(** The part that the handlers of [/f1], [/f2] and [/f3] share. *)
Definition respond (err : option error) : response :=
  if errors_Is err featureInactive then Body "feature is not active"
  else
    match err with
    | Some e => InternalServerError (Error e)
    | None => Body "ok"
    end.

Definition handle_f1 (r : row_result) (w : world) : world * response :=
  let (w', err) := ensureFeatureActive r w in (w', respond err).

Definition handle_f3 (w : world) : world * response :=
  let (w', err) := ensureFeatureActiveWithCache "f" w in (w', respond err).

(** *** The coalescing group *)

(** A caller of [ensureFeatureActiveWithSingleFlight]: before
    [featureActiveSF.Do]; inside it as the caller that runs
    [isFeatureActive] for the handle [h]; inside it waiting on the handle
    [h]; or returned, with the handle it was served by, the value and error
    that [Do] handed back and the error it returned itself. *)
Inductive caller :=
| Calling (feature : string)
| Leading (feature : string) (h : nat)
| Waiting (h : nat)
| Returned (h : nat) (res : bool * option error) (err : option error).

(** Modelled from the spec: [singleflight.Group] of golang.org/x/sync,
    which the repository imports and does not contain. The group keeps a map
    from key to an in-flight handle; [handles] holds the result slot of
    every handle made so far, [None] while its query runs. *)
Record flight := Flight {
  proc : world;
  inflight : gmap string nat;
  handles : list (option (bool * option error));
  callers : list caller
}.

(** The steps of the callers, interleaved in any order: [Enter c] is the
    critical section at the start of [Do], [Finish c r] is the leader's
    query answered with [r] and its result published, [Wake c] is a waiter
    reading the published result. *)
Inductive flight_event :=
| Enter (c : nat)
| Finish (c : nat) (r : row_result)
| Wake (c : nat).

(** Modelled from the spec: [Group.Do], section 4.7: with no in-flight
    handle for the key, install one, execute the store query, store the
    result on the handle, remove the handle from the map and wake the
    waiters; with one, attach as a waiter and receive the same value and
    error as the leader. A step that a caller cannot take leaves the state
    as it is. *)
Definition flight_step (fl : flight) (e : flight_event) : flight :=
  match e with
  | Enter c =>
      match callers fl !! c with
      | Some (Calling key) =>
          match inflight fl !! key with
          | Some h =>
              Flight (proc fl) (inflight fl) (handles fl)
                     (<[c := Waiting h]> (callers fl))
          | None =>
              let h := length (handles fl) in
              Flight (proc fl) (<[key := h]> (inflight fl)) (handles fl ++ [None])
                     (<[c := Leading key h]> (callers fl))
          end
      | _ => fl
      end
  | Finish c r =>
      match callers fl !! c with
      | Some (Leading key h) =>
          let (w', res) := isFeatureActive r (proc fl) in
          Flight w' (delete key (inflight fl)) (<[h := Some res]> (handles fl))
                 (<[c := Returned h res (afterDo res)]> (callers fl))
      | _ => fl
      end
  | Wake c =>
      match callers fl !! c with
      | Some (Waiting h) =>
          match handles fl !! h with
          | Some (Some res) =>
              Flight (proc fl) (inflight fl) (handles fl)
                     (<[c := Returned h res (afterDo res)]> (callers fl))
          | _ => fl
          end
      | _ => fl
      end
  end.

Definition flight_run (fl : flight) (evs : list flight_event) : flight :=
  foldl flight_step fl evs.

(** Callers about to ask for the given features, and an empty group. *)
Definition flight_init (w : world) (features : list string) : flight :=
  Flight w ∅ [] (Calling <$> features).

(** *** Notions used to state the properties *)

(** A refresh whose query cannot be run, and one whose second row does
    not scan. *)
Definition snapshot : world := World (<["f" := true]> ∅) 1 [] true.
Definition broken_scan : query_result :=
  Rows [Scanned "f" false; ScanError "scan"; Scanned "g" true] None.

(** A leader's handle is the one installed for its key and is still in
    flight; a handle has one leader; a caller that returned was handed the
    result published on its handle. *)
Definition flight_inv (fl : flight) : Prop :=
  (∀ c key h, callers fl !! c = Some (Leading key h) →
     inflight fl !! key = Some h ∧ handles fl !! h = Some None) ∧
  (∀ c c' key key' h, callers fl !! c = Some (Leading key h) →
     callers fl !! c' = Some (Leading key' h) → c = c') ∧
  (∀ c h res err, callers fl !! c = Some (Returned h res err) →
     handles fl !! h = Some (Some res) ∧ err = afterDo res).

(** Three callers of the key ["f"]: the first leads, the other two arrive
    while its query is in flight, and the row read is [active = false]. *)
Definition three_callers : flight :=
  flight_run (flight_init init ["f"; "f"; "f"]%string)
             [Enter 0; Enter 2; Enter 1; Finish 0 (Row false); Wake 1; Wake 2].

(** *** Notions used to state further properties *)

(** What a store whose table [features] holds the rows [t] (name and
    active, no null) answers: all the rows to the query of
    [updateFeatureActiveCache], and the row of the name, if any, to the
    query of [isFeatureActive]. *)
Definition table_rows (t : list (string * bool)) : query_result :=
  Rows ((λ na, Scanned na.1 na.2) <$> t) None.

Definition table_row (t : list (string * bool)) (name : string) : row_result :=
  match filter (λ na, na.1 = name) t with
  | na :: _ => Row na.2
  | [] => ErrNoRows
  end.

End Singleflight.

(** * Properties of the stateful package *)

Module StatefulFacts.
Import Stateful.

(** ** Facts about [int64] addition *)

Lemma wrap_range z : Int64.min_int <= Int64.wrap z <= Int64.max_int.
Proof.
  unfold Int64.wrap, Int64.min_int, Int64.max_int.
  pose proof (Z.mod_pos_bound (z + 2 ^ 63) (2 ^ 64)). lia.
Qed.

Lemma wrap_id z : Int64.in_range z → Int64.wrap z = z.
Proof.
  unfold Int64.in_range, Int64.wrap, Int64.min_int, Int64.max_int. intros H.
  rewrite Z.mod_small; lia.
Qed.

(** From a balance that is not negative, an addition whose [int64] result
    is not negative did not overflow. *)
Lemma add_nonneg_exact v a :
  0 <= v <= Int64.max_int → Int64.in_range a →
  0 <= Int64.add v a → Int64.add v a = v + a.
Proof.
  unfold Int64.add, Int64.in_range, Int64.wrap, Int64.min_int, Int64.max_int.
  intros Hv Ha H.
  destruct (Z_lt_le_dec (v + a) (2 ^ 63)) as [Hlt|Hge].
  - rewrite Z.mod_small; lia.
  - exfalso.
    assert (E : (v + a + 2 ^ 63) mod 2 ^ 64 = v + a + 2 ^ 63 - 2 ^ 64).
    { symmetry. apply Z.mod_unique with (q := 1); lia. }
    lia.
Qed.

(** ** The transaction of [flush] *)

Ltac tx_unfold :=
  unfold addPoint, flush_tx, RunInTx, flush_body, restoreState,
    batchInsertTxLogs, saveDirtyState, queryBalance, upsertBalance, insertTx, newUUID,
    call, throw, get, modify, mbind, mret, Tx_bind, Tx_ret.

(** Inversion of a bind, by the result. *)
Lemma bind_ok {A B} (m : Tx A) (k : A → Tx B) w w' b :
  (m ≫= k) w = (w', inr b) →
  ∃ w1 a, m w = (w1, inr a) ∧ k a w1 = (w', inr b).
Proof.
  unfold mbind, Tx_bind. destruct (m w) as [w1 [e|a]]; simpl; [done|].
  intros H. by exists w1, a.
Qed.

Lemma bind_err {A B} (m : Tx A) (k : A → Tx B) w w' e :
  (m ≫= k) w = (w', inl e) →
  m w = (w', inl e) ∨ ∃ w1 a, m w = (w1, inr a) ∧ k a w1 = (w', inl e).
Proof.
  unfold mbind, Tx_bind. destruct (m w) as [w1 [e'|a]]; simpl; intros H.
  - left. by injection H as -> ->.
  - right. by exists w1, a.
Qed.

Lemma length_zero_nil {A} (l : list A) :
  (Z.of_nat (length l) =? 0) = true → l = [].
Proof. by destruct l. Qed.

Lemma restoreState_ok f keys w w' m :
  restoreState f keys w = (w', inr m) →
  w' = w ∧ m = selectBalances (user_points (db w)) keys.
Proof.
  unfold restoreState. case_match eqn:Hk.
  - apply length_zero_nil in Hk as ->. by intros [= <- <-].
  - tx_unfold. destruct (fails f CallRead); simpl; [done|]. by intros [= <- <-].
Qed.

Lemma restoreState_err f keys w w' e :
  restoreState f keys w = (w', inl e) → w' = w.
Proof.
  unfold restoreState. case_match; [done|].
  tx_unfold. destruct (fails f CallRead); simpl; [|done]. by intros [= <- <-].
Qed.

Lemma batchInsertTxLogs_ok f w w' u :
  batchInsertTxLogs f w = (w', inr u) →
  w' = set_db (MkStore (user_points (db w)) (point_txs (db w) ++ txLogs w)) w.
Proof.
  tx_unfold. simpl. case_match eqn:Hk.
  - apply length_zero_nil in Hk. intros [= <- <-]. rewrite Hk, app_nil_r.
    destruct w as [[] ? ? ? ? ? ? ? ?]; done.
  - destruct (fails f CallInsertTx); simpl; [done|]. by intros [= <- <-].
Qed.

Lemma batchInsertTxLogs_err f w w' e :
  batchInsertTxLogs f w = (w', inl e) → w' = w.
Proof.
  tx_unfold. simpl. case_match; [done|].
  destruct (fails f CallInsertTx); simpl; [|done]. by intros [= <- <-].
Qed.

Lemma saveDirtyState_ok f st d w w' u :
  saveDirtyState f st d w = (w', inr u) →
  w' = set_db (MkStore (upsertAll st (elements d) (user_points (db w)))
                       (point_txs (db w))) w.
Proof.
  unfold saveDirtyState. case_match eqn:Hk.
  - intros [= <- <-]. apply Z.eqb_eq in Hk.
    assert (d = ∅) as -> by (apply leibniz_equiv, size_empty_iff; lia).
    rewrite elements_empty. simpl.
    destruct w as [[] ? ? ? ? ? ? ? ?]; done.
  - tx_unfold. destruct (fails f CallUpsert); simpl; [done|]. by intros [= <- <-].
Qed.

Lemma saveDirtyState_err f st d w w' e :
  saveDirtyState f st d w = (w', inl e) → w' = w.
Proof.
  unfold saveDirtyState. case_match; [done|].
  tx_unfold. destruct (fails f CallUpsert); simpl; [|done]. by intros [= <- <-].
Qed.

Lemma flush_body_ok f w w' u :
  flush_body f (map userID (buff w)) w = (w', inr u) →
  let b := batch_of w in
  w' = set_db (MkStore (upsertAll (state b) (elements (dirty b)) (user_points (db w)))
                       (point_txs (db w) ++ b_txLogs b)) (after_loop w).
Proof.
  unfold flush_body. intros H.
  apply bind_ok in H as (w1 & m & H1 & H).
  apply restoreState_ok in H1 as [-> ->].
  apply bind_ok in H as (w1 & w2 & H1 & H).
  injection H1 as <- <-.
  apply bind_ok in H as (w2 & [] & H1 & H).
  injection H1 as <-.
  apply bind_ok in H as (w3 & [] & H1 & H).
  apply batchInsertTxLogs_ok in H1. apply saveDirtyState_ok in H.
  subst. done.
Qed.

Lemma flush_body_err f w w' e :
  flush_body f (map userID (buff w)) w = (w', inl e) →
  opChan w' = opChan w ∧ buff w' = buff w ∧ sent w' = sent w ∧
  running w' = running w ∧ next_chan w' = next_chan w.
Proof.
  unfold flush_body. intros H.
  apply bind_err in H as [H|(w1 & m & H1 & H)].
  { by apply restoreState_err in H as ->. }
  apply restoreState_ok in H1 as [-> ->].
  apply bind_err in H as [H|(w1 & w2 & H1 & H)]; [done|].
  injection H1 as <- <-.
  apply bind_err in H as [H|(w2 & [] & H1 & H)]; [done|].
  injection H1 as <-.
  apply bind_err in H as [H|(w3 & [] & H1 & H)].
  { by apply batchInsertTxLogs_err in H as ->. }
  apply batchInsertTxLogs_ok in H1. apply saveDirtyState_err in H.
  subst. done.
Qed.

Lemma flush_tx_frame f w w' r :
  flush_tx f w = (w', r) →
  opChan w' = opChan w ∧ buff w' = buff w ∧ sent w' = sent w ∧
  running w' = running w ∧ next_chan w' = next_chan w.
Proof.
  unfold flush_tx.
  destruct (flush_body f (map userID (buff w)) w) as [w1 [e|u]] eqn:Hb.
  - intros [= <- <-]. by apply flush_body_err in Hb.
  - apply flush_body_ok in Hb. subst w1. by case_match; intros [= <- <-].
Qed.

Lemma saveDirtyState_err_fault f st d w w' e :
  saveDirtyState f st d w = (w', inl e) → fails f CallUpsert = true.
Proof.
  unfold saveDirtyState. case_match; [done|].
  tx_unfold. by destruct (fails f CallUpsert).
Qed.

(** What the statements of a flush leave in the tables, and where the
    identifier source stands: nothing written after a failed read or a
    failed bulk insert; the rows written after a failed bulk upsert; rows
    and balances written when the body succeeded, whether the commit then
    failed or not. *)
Lemma flush_tx_cases f w w' r :
  flush_tx f w = (w', r) →
  let b := batch_of w in
  (db w' = db w ∧ (next_uuid w' = next_uuid w ∨ next_uuid w' = b_uuid b) ∧
   ∃ e, r = inl e) ∨
  (db w' = MkStore (user_points (db w)) (point_txs (db w) ++ b_txLogs b) ∧
   next_uuid w' = b_uuid b ∧ fails f CallUpsert = true ∧ ∃ e, r = inl e) ∨
  (db w' = MkStore (upsertAll (state b) (elements (dirty b)) (user_points (db w)))
                   (point_txs (db w) ++ b_txLogs b) ∧
   next_uuid w' = b_uuid b ∧
   (r = inr tt ∨ fails f CallCommit = true ∧ r = inl (ErrStore CallCommit))).
Proof.
  unfold flush_tx.
  destruct (flush_body f (map userID (buff w)) w) as [w1 [e|[]]] eqn:Hb.
  - intros [= <- <-]. revert Hb. unfold flush_body. intros H.
    apply bind_err in H as [H|(w2 & m & H1 & H)].
    { left. apply restoreState_err in H as ->. eauto. }
    apply restoreState_ok in H1 as [-> ->].
    apply bind_err in H as [H|(w2 & w3 & H1 & H)]; [done|].
    injection H1 as <- <-.
    apply bind_err in H as [H|(w3 & [] & H1 & H)]; [done|].
    injection H1 as <-.
    apply bind_err in H as [H|(w4 & [] & H1 & H)].
    { left. apply batchInsertTxLogs_err in H as ->. simpl. eauto. }
    apply batchInsertTxLogs_ok in H1.
    pose proof (saveDirtyState_err_fault _ _ _ _ _ _ H) as Hf.
    apply saveDirtyState_err in H. right. left. subst. simpl. eauto.
  - apply flush_body_ok in Hb. subst w1. right. right.
    destruct (fails f CallCommit); injection H as <- <-; simpl; eauto.
Qed.

(** A flush that fails before it has written leaves the database as it
    was. *)
Lemma early_failure_wrote_nothing f w w' e :
  early f → flush_tx f w = (w', inl e) → db w' = db w.
Proof.
  intros [Hu Hc] Htx.
  apply flush_tx_cases in Htx as [(H & _)|[(_ & _ & Hf & _)|(_ & _ & [H|[Hf _]])]];
    [done|congruence|done|congruence].
Qed.

(** A committed transaction appends the batch's rows to [point_txs],
    upserts the dirty balances, and leaves the batch's slices in
    [callbacks] and [txLogs]. *)
Lemma flush_tx_commit f w w' u :
  flush_tx f w = (w', inr u) →
  let b := batch_of w in
  db w' = MkStore (upsertAll (state b) (elements (dirty b)) (user_points (db w)))
                  (point_txs (db w) ++ b_txLogs b) ∧
  callbacks w' = b_callbacks b ∧ txLogs w' = b_txLogs b ∧
  next_uuid w' = b_uuid b.
Proof.
  unfold flush_tx.
  destruct (flush_body f (map userID (buff w)) w) as [w1 [e'|u']] eqn:Hb; [done|].
  apply flush_body_ok in Hb. subst w1. by case_match; intros [= <- <-].
Qed.

(** ** The loop over the buffer *)

Lemma apply_ops_app b ps qs :
  apply_ops b (ps ++ qs) = apply_ops (apply_ops b ps) qs.
Proof. unfold apply_ops. by rewrite foldl_app. Qed.

(** Every operation appends one callback. *)
Lemma apply_op_callbacks b p :
  ∃ cb, b_callbacks (apply_op b p) = b_callbacks b ++ [cb].
Proof. unfold apply_op. case_match; simpl; eauto. Qed.

Lemma apply_ops_callbacks_length b ps :
  length (b_callbacks (apply_ops b ps)) = (length (b_callbacks b) + length ps)%nat.
Proof.
  revert b. induction ps as [|p ps IH]; intros b; simpl; [lia|].
  fold (apply_ops (apply_op b p) ps). rewrite IH.
  destruct (apply_op_callbacks b p) as [cb ->]. rewrite length_app. simpl. lia.
Qed.

(** The callbacks already recorded are never rewritten. *)
Lemma apply_ops_callbacks_prefix b ps :
  ∃ cbs, b_callbacks (apply_ops b ps) = b_callbacks b ++ cbs ∧
         length cbs = length ps.
Proof.
  revert b. induction ps as [|p ps IH]; intros b; simpl.
  - exists []. by rewrite app_nil_r.
  - fold (apply_ops (apply_op b p) ps).
    destruct (IH (apply_op b p)) as (cbs & -> & Hl).
    destruct (apply_op_callbacks b p) as [cb ->].
    exists (cb :: cbs). rewrite <- app_assoc. simpl. by rewrite Hl.
Qed.

Lemma batch_of_callbacks_length w :
  length (b_callbacks (batch_of w)) = length (buff w).
Proof. unfold batch_of. by rewrite apply_ops_callbacks_length. Qed.

(** ** Sending the callbacks *)

Lemma send_callbacks_zip ps : ∀ i cbs log,
  length cbs = (i + length ps)%nat →
  send_callbacks i ps cbs log = (log ++ zip (map done ps) (drop i cbs), true).
Proof.
  induction ps as [|p ps IH]; intros i cbs log Hl; simpl.
  - by rewrite app_nil_r.
  - simpl in Hl.
    destruct (cbs !! i) as [cb|] eqn:Hi.
    + rewrite IH by lia. rewrite <- app_assoc. simpl.
      by rewrite (drop_S _ _ _ Hi).
    + apply lookup_ge_None in Hi. lia.
Qed.

(** What [flush] does, by cases on the buffer and on the transaction. *)
Lemma flush_cases f w :
  (buff w = [] ∧ flush f w = w) ∨
  (∃ w1 e, buff w ≠ [] ∧ flush_tx f w = (w1, inl e) ∧ flush f w = w1) ∨
  (∃ w1, buff w ≠ [] ∧ flush_tx f w = (w1, inr tt) ∧
     flush f w = set_buff []
       (set_sent (sent w ++ zip (map done (buff w)) (callbacks w1)) w1)).
Proof.
  unfold flush. case_match eqn:Hk.
  { left. by apply length_zero_nil in Hk. }
  assert (buff w ≠ []) by (by intros E; rewrite E in Hk).
  right. destruct (flush_tx f w) as [w1 [e|[]]] eqn:Htx.
  - left. by exists w1, e.
  - right. exists w1. split; [done|]. split; [done|].
    pose proof (flush_tx_frame _ _ _ _ Htx) as (_ & Hb & Hs & _).
    pose proof (flush_tx_commit _ _ _ _ Htx) as (_ & Hc & _).
    rewrite send_callbacks_zip.
    + by rewrite Hb, Hs.
    + by rewrite Hc, batch_of_callbacks_length, Hb.
Qed.

(** ** Reading and writing the balances *)

Lemma selectBalances_cons t k keys :
  selectBalances t (k :: keys) =
    match t !! k with
    | Some balance => <[k := balance]> (selectBalances t keys)
    | None => selectBalances t keys
    end.
Proof. done. Qed.

Lemma selectBalances_lookup t keys u :
  selectBalances t keys !! u = if decide (u ∈ keys) then t !! u else None.
Proof.
  induction keys as [|k keys IH].
  - rewrite decide_False by set_solver. apply lookup_empty.
  - rewrite selectBalances_cons.
    destruct (decide (u = k)) as [->|Hne].
    + rewrite decide_True by set_solver.
      destruct (t !! k) eqn:Hk.
      * by rewrite lookup_insert_eq.
      * rewrite IH. by case_decide.
    + assert ((match t !! k with
               | Some balance => <[k := balance]> (selectBalances t keys)
               | None => selectBalances t keys
               end) !! u = selectBalances t keys !! u) as ->.
      { destruct (t !! k); [by rewrite lookup_insert_ne|done]. }
      rewrite IH.
      destruct (decide (u ∈ keys));
        [rewrite decide_True by set_solver|rewrite decide_False by set_solver]; done.
Qed.

Lemma upsertAll_cons st k l t :
  upsertAll st (k :: l) t = <[k := default 0 (st !! k)]> (upsertAll st l t).
Proof. done. Qed.

Lemma upsertAll_lookup st l t u :
  upsertAll st l t !! u =
    if decide (u ∈ l) then Some (default 0 (st !! u)) else t !! u.
Proof.
  induction l as [|k l IH].
  - by rewrite decide_False by set_solver.
  - rewrite upsertAll_cons.
    destruct (decide (u = k)) as [->|Hne].
    + rewrite lookup_insert_eq. by rewrite decide_True by set_solver.
    + rewrite lookup_insert_ne by done. rewrite IH.
      destruct (decide (u ∈ l));
        [rewrite decide_True by set_solver|rewrite decide_False by set_solver]; done.
Qed.

(** ** The two invariants of the tables *)

Lemma ledger_sum_app u l1 l2 :
  ledger_sum u (l1 ++ l2) = ledger_sum u l1 + ledger_sum u l2.
Proof.
  induction l1 as [|t l1 IH]; simpl; [done|]. case_decide; lia.
Qed.

Lemma new_balance_range b p :
  Int64.min_int <= new_balance b p <= Int64.max_int.
Proof. apply wrap_range. Qed.

Lemma apply_op_valid b p :
  balances_valid (state b) → balances_valid (state (apply_op b p)).
Proof.
  intros Hv. unfold apply_op. case_match eqn:Hneg; simpl; [done|].
  intros u v. rewrite lookup_insert. case_decide.
  - intros [= <-]. pose proof (new_balance_range b p). apply Z.ltb_ge in Hneg. lia.
  - apply Hv.
Qed.

Lemma apply_ops_valid b ps :
  balances_valid (state b) → balances_valid (state (apply_ops b ps)).
Proof.
  revert b. induction ps as [|p ps IH]; intros b Hv; simpl; [done|].
  apply IH, apply_op_valid, Hv.
Qed.

Lemma apply_ops_dirty b ps u :
  u ∈ dirty (apply_ops b ps) → u ∈ dirty b ∨ u ∈ map userID ps.
Proof.
  revert b. induction ps as [|p ps IH]; intros b; simpl; [by left|].
  intros [H|H]%IH; [|right; set_solver].
  revert H. unfold apply_op. case_match; simpl; set_solver.
Qed.

Lemma state_default_valid b u :
  balances_valid (state b) → 0 <= default 0 (state b !! u) <= Int64.max_int.
Proof.
  intros Hv. destruct (state b !! u) as [v|] eqn:E; simpl.
  - by apply (Hv u).
  - unfold Int64.max_int. lia.
Qed.

Lemma apply_op_inv base b p :
  Int64.in_range (amount p) → batch_inv base b → batch_inv base (apply_op b p).
Proof.
  intros Hr (Hv & Hs & Hd). split; [by apply apply_op_valid|].
  unfold apply_op. case_match eqn:Hneg; simpl; [done|].
  apply Z.ltb_ge in Hneg.
  pose proof (state_default_valid b (userID p) Hv) as Hb.
  pose proof (add_nonneg_exact _ _ Hb Hr Hneg) as Hex.
  fold (new_balance b p) in Hex.
  split; intros u.
  - rewrite ledger_sum_app. simpl. rewrite lookup_insert.
    case_decide as Hu; simpl.
    + rewrite Hex. subst u. rewrite (Hs (userID p)). lia.
    + rewrite (Hs u). lia.
  - intros Hnd. rewrite ledger_sum_app. simpl.
    rewrite decide_False by set_solver. rewrite Hd by set_solver. lia.
Qed.

Lemma apply_ops_inv base b ps :
  Forall (λ p, Int64.in_range (amount p)) ps →
  batch_inv base b → batch_inv base (apply_ops b ps).
Proof.
  revert b. induction ps as [|p ps IH]; intros b Hr Hb; simpl; [done|].
  inversion Hr; subst. by apply IH, apply_op_inv.
Qed.

(** ** [addPoint] *)

Lemma addPoint_frame f u a w w' r :
  addPoint f u a w = (w', r) →
  opChan w' = opChan w ∧ buff w' = buff w ∧ sent w' = sent w ∧
  running w' = running w ∧ next_chan w' = next_chan w.
Proof.
  tx_unfold. simpl.
  destruct (fails f CallRead); simpl; [by intros [= <- <-]|].
  destruct (_ <? 0); simpl; [by intros [= <- <-]|].
  destruct (fails f CallUpsert); simpl; [by intros [= <- <-]|].
  destruct (fails f CallInsertTx); simpl; [by intros [= <- <-]|].
  destruct (fails f CallCommit); simpl; by intros [= <- <-].
Qed.

(** [addPoint] either fails and leaves the tables as they were, or
    writes the new balance, which is not negative, and one ledger row. *)
Lemma addPoint_cases f u a w w' r :
  addPoint f u a w = (w', r) →
  (∃ e, r = inl e ∧ db w' = db w) ∨
  (r = inr tt ∧ 0 <= Int64.add (balance_of u (db w)) a ∧
   db w' = MkStore (<[u := Int64.add (balance_of u (db w)) a]> (user_points (db w)))
                   (point_txs (db w) ++ [TxLog (next_uuid w) u a])).
Proof.
  tx_unfold. unfold balance_of. simpl.
  destruct (fails f CallRead); simpl; [intros [= <- <-]; left; eauto|].
  destruct (_ <? 0) eqn:Hneg; simpl; [intros [= <- <-]; left; eauto|].
  apply Z.ltb_ge in Hneg.
  destruct (fails f CallUpsert); simpl; [intros [= <- <-]; left; eauto|].
  destruct (fails f CallInsertTx); simpl; [intros [= <- <-]; left; eauto|].
  destruct (fails f CallCommit); simpl; intros [= <- <-]; [left; eauto|].
  right. done.
Qed.

(** ** One step of the process keeps the tables' invariants *)

Lemma flush_commit_valid f w w1 u :
  balances_valid (user_points (db w)) →
  flush_tx f w = (w1, inr u) →
  balances_valid (user_points (db w1)).
Proof.
  intros Hv Htx. apply flush_tx_commit in Htx as (-> & _). simpl.
  intros k v. rewrite upsertAll_lookup. case_decide; [|apply Hv].
  intros [= <-]. apply state_default_valid. unfold batch_of.
  apply apply_ops_valid. simpl. intros k' v'.
  rewrite selectBalances_lookup. case_decide; [apply Hv|done].
Qed.

(** The balances that a flush upserts are valid. *)
Lemma batch_points_valid w :
  balances_valid (user_points (db w)) →
  balances_valid (upsertAll (state (batch_of w)) (elements (dirty (batch_of w)))
                            (user_points (db w))).
Proof.
  intros Hv k v. rewrite upsertAll_lookup. case_decide; [|apply Hv].
  intros [= <-]. apply state_default_valid. unfold batch_of.
  apply apply_ops_valid. simpl. intros k' v'.
  rewrite selectBalances_lookup. case_decide; [apply Hv|done].
Qed.

(** The tables and the identifier source after [flush], whether its
    transaction failed or not. *)
Lemma flush_db_cases f w :
  let b := batch_of w in
  (db (flush f w) = db w ∧
   (next_uuid (flush f w) = next_uuid w ∨ next_uuid (flush f w) = b_uuid b)) ∨
  (db (flush f w) = MkStore (user_points (db w)) (point_txs (db w) ++ b_txLogs b) ∧
   next_uuid (flush f w) = b_uuid b) ∨
  (db (flush f w) =
     MkStore (upsertAll (state b) (elements (dirty b)) (user_points (db w)))
             (point_txs (db w) ++ b_txLogs b) ∧
   next_uuid (flush f w) = b_uuid b).
Proof.
  destruct (flush_cases f w) as [[_ ->]|[(w1 & e & _ & Htx & ->)|(w1 & _ & Htx & ->)]].
  - left. auto.
  - apply flush_tx_cases in Htx as [(? & ? & _)|[(? & ? & _)|(? & ? & _)]]; auto.
  - apply flush_tx_cases in Htx as [(? & ? & _)|[(? & ? & _)|(? & ? & _)]];
      simpl; auto.
Qed.

Lemma batch_of_inv w :
  balances_valid (user_points (db w)) →
  Forall (λ p, Int64.in_range (amount p)) (buff w) →
  batch_inv (λ u, default 0 (selectBalances (user_points (db w))
                               (map userID (buff w)) !! u))
            (batch_of w).
Proof.
  intros Hv Hr. unfold batch_of. apply apply_ops_inv; [done|].
  split; [|split]; simpl.
  - intros k v. rewrite selectBalances_lookup. case_decide; [apply Hv|done].
  - intros u. lia.
  - done.
Qed.

Lemma flush_commit_consistent f w w1 u :
  balances_valid (user_points (db w)) →
  ledger_consistent (db w) →
  Forall (λ p, Int64.in_range (amount p)) (buff w) →
  flush_tx f w = (w1, inr u) →
  ledger_consistent (db w1).
Proof.
  intros Hv Hc Hr Htx.
  destruct (batch_of_inv w Hv Hr) as (_ & Hs & Hd).
  apply flush_tx_commit in Htx as (-> & _).
  intros k. unfold balance_of. simpl.
  rewrite ledger_sum_app, upsertAll_lookup, (Hc k). unfold balance_of.
  case_decide as Hk.
  - simpl. rewrite (Hs k). apply elem_of_elements in Hk.
    apply apply_ops_dirty in Hk as [Hk|Hk]; [set_solver|].
    rewrite selectBalances_lookup. by rewrite decide_True by done.
  - rewrite Hd; [lia|]. by rewrite <- elem_of_elements.
Qed.

Lemma flush_valid f w :
  balances_valid (user_points (db w)) →
  balances_valid (user_points (db (flush f w))).
Proof.
  intros Hv.
  destruct (flush_db_cases f w) as [(-> & _)|[(-> & _)|(-> & _)]]; simpl.
  - done.
  - done.
  - by apply batch_points_valid.
Qed.

Lemma flush_consistent f w :
  early f →
  balances_valid (user_points (db w)) →
  ledger_consistent (db w) →
  Forall (λ p, Int64.in_range (amount p)) (buff w) →
  ledger_consistent (db (flush f w)).
Proof.
  intros Hf Hv Hc Hr.
  destruct (flush_cases f w) as [[_ ->]|[(w1 & e & _ & Htx & ->)|(w1 & _ & Htx & ->)]].
  - done.
  - by rewrite (early_failure_wrote_nothing _ _ _ _ Hf Htx).
  - simpl. by eapply flush_commit_consistent.
Qed.

(** What [flush] leaves alone. *)
Lemma flush_frame f w :
  opChan (flush f w) = opChan w ∧ next_chan (flush f w) = next_chan w ∧
  running (flush f w) = running w.
Proof.
  destruct (flush_cases f w) as [[_ ->]|[(w1 & e & _ & Htx & ->)|(w1 & _ & Htx & ->)]].
  - done.
  - by apply flush_tx_frame in Htx as (? & ? & ? & ? & ?).
  - simpl. by apply flush_tx_frame in Htx as (? & ? & ? & ? & ?).
Qed.

Lemma flush_buff f w :
  buff (flush f w) = buff w ∨ buff (flush f w) = [].
Proof.
  destruct (flush_cases f w) as [[_ ->]|[(w1 & e & _ & Htx & ->)|(w1 & _ & Htx & ->)]].
  - by left.
  - left. by apply flush_tx_frame in Htx as (? & ? & ? & ? & ?).
  - by right.
Qed.

(** ** Completion handles *)

Lemma sends_on_answered h w : sends_on h w = occurrences h (answered w).
Proof.
  unfold sends_on, occurrences, answered.
  induction (sent w) as [|[h' cb] l IH]; [done|].
  rewrite fmap_cons, !filter_cons. simpl. case_decide; simpl; by rewrite IH.
Qed.

Lemma occurrences_app h l k :
  occurrences h (l ++ k) = (occurrences h l + occurrences h k)%nat.
Proof. unfold occurrences. by rewrite filter_app, length_app. Qed.

Lemma occurrences_seq h n :
  occurrences h (seq 0 n) = if decide (h < n)%nat then 1%nat else 0%nat.
Proof.
  induction n as [|n IH]; [done|].
  rewrite seq_S, occurrences_app, IH. unfold occurrences.
  rewrite filter_cons, filter_nil. simpl.
  repeat case_decide; simpl; lia.
Qed.

Lemma occurrences_perm h l k : l ≡ₚ k → occurrences h l = occurrences h k.
Proof. unfold occurrences. by intros ->. Qed.

Lemma handles_inv_ext w w' :
  opChan w' = opChan w → buff w' = buff w → sent w' = sent w →
  next_chan w' = next_chan w → handles_inv w → handles_inv w'.
Proof.
  unfold handles_inv, pending, answered. by intros -> -> -> ->.
Qed.

Lemma flush_handles f w : handles_inv w → handles_inv (flush f w).
Proof.
  intros Hi.
  destruct (flush_cases f w) as [[_ ->]|[(w1 & e & _ & Htx & ->)|(w1 & _ & Htx & ->)]].
  - done.
  - apply flush_tx_frame in Htx as (? & ? & ? & ? & ?).
    by apply (handles_inv_ext w).
  - pose proof (flush_tx_commit _ _ _ _ Htx) as (_ & Hc & _).
    apply flush_tx_frame in Htx as (Hq & Hb & Hs & Hr & Hn).
    unfold handles_inv, pending, answered in *. simpl.
    rewrite Hq, Hn, fmap_app, fst_zip.
    2:{ rewrite Hc, batch_of_callbacks_length. by rewrite length_map. }
    rewrite <- Hi, !map_app, app_nil_r.
    rewrite <- app_assoc. apply Permutation_app_head, Permutation_app_comm.
Qed.

Lemma step_handles w e : handles_inv w → handles_inv (step w e).
Proof.
  intros Hi. destruct e as [f u a|u a| |f|f]; unfold step.
  - destruct (addPoint f u a w) as [w' r] eqn:Ha.
    apply addPoint_frame in Ha as (? & ? & ? & ? & ?).
    by apply (handles_inv_ext w).
  - unfold submit. case_match; [done|].
    unfold handles_inv, pending, answered in *.
    cbn [next_chan sent opChan buff set_next_chan set_opChan].
    rewrite seq_S, <- Hi, !map_app. simpl.
    rewrite <- !app_assoc. apply Permutation_app_head, Permutation_app_head.
    apply Permutation_app_comm.
  - by destruct (running w).
  - destruct (running w); [by apply flush_handles|done].
  - destruct (running w); [|done]. destruct (opChan w) as [|p rest] eqn:Hq; [done|].
    assert (handles_inv (set_buff (buff w ++ [p]) (set_opChan rest w))) as Hi'.
    { unfold handles_inv, pending, answered in *. simpl.
      rewrite <- Hi, Hq, !map_app. simpl.
      apply Permutation_app_head. rewrite app_assoc.
      by rewrite <- Permutation_cons_append. }
    case_match; [by apply flush_handles|done].
Qed.

Lemma run_handles evs w : handles_inv w → handles_inv (run w evs).
Proof.
  revert w. induction evs as [|e evs IH]; intros w Hi; simpl; [done|].
  by apply IH, step_handles.
Qed.

Lemma init_handles : handles_inv init.
Proof. unfold handles_inv. simpl. constructor. Qed.

(** Once the worker has returned, nothing is sent any more. *)
Lemma stopped_step w e :
  running w = false →
  running (step w e) = false ∧ sent (step w e) = sent w.
Proof.
  intros Hr. destruct e as [f u a|u a| |f|f].
  - unfold step. destruct (addPoint f u a w) as [w' r] eqn:Ha.
    apply addPoint_frame in Ha as (? & ? & ? & ? & ?). simpl. split; congruence.
  - simpl. unfold submit. by case_match.
  - simpl. by rewrite Hr.
  - simpl. by rewrite Hr.
  - simpl. by rewrite Hr.
Qed.

Lemma stopped_run evs w :
  running w = false → sent (run w evs) = sent w.
Proof.
  revert w. induction evs as [|e evs IH]; intros w Hr; simpl; [done|].
  destruct (stopped_step w e Hr) as (Hr' & Hs). by rewrite IH.
Qed.

(** ** The tables along a run *)

Lemma addPoint_valid f u a w :
  balances_valid (user_points (db w)) →
  balances_valid (user_points (db (addPoint f u a w).1)).
Proof.
  intros Hv. destruct (addPoint f u a w) as [w' r] eqn:Ha.
  simpl.
  apply addPoint_cases in Ha as [(e & _ & Hdb)|(_ & Hpos & Hdb)];
    rewrite Hdb; simpl; [done|].
  intros k v. rewrite lookup_insert. case_decide; [|apply Hv].
  intros [= <-]. pose proof (wrap_range (balance_of u (db w) + a)).
  unfold Int64.add in *. lia.
Qed.

Lemma step_valid w e :
  balances_valid (user_points (db w)) →
  balances_valid (user_points (db (step w e))).
Proof.
  intros Hv. destruct e as [f u a|u a| |f|f]; unfold step.
  - by apply addPoint_valid.
  - unfold submit. by case_match.
  - by destruct (running w).
  - destruct (running w); [by apply flush_valid|done].
  - destruct (running w); [|done]. destruct (opChan w); [done|].
    case_match; [by apply flush_valid|done].
Qed.

Lemma run_valid evs w :
  balances_valid (user_points (db w)) →
  balances_valid (user_points (db (run w evs))).
Proof.
  revert w. induction evs as [|e evs IH]; intros w Hv; simpl; [done|].
  by apply IH, step_valid.
Qed.

Lemma addPoint_consistent f u a w :
  Int64.in_range a →
  balances_valid (user_points (db w)) →
  ledger_consistent (db w) →
  ledger_consistent (db (addPoint f u a w).1).
Proof.
  intros Hr Hv Hc. destruct (addPoint f u a w) as [w' r] eqn:Ha.
  simpl.
  apply addPoint_cases in Ha as [(e & _ & Hdb)|(_ & Hpos & Hdb)];
    rewrite Hdb; simpl; [done|].
  assert (0 <= balance_of u (db w) <= Int64.max_int) as Hb.
  { unfold balance_of. destruct (user_points (db w) !! u) eqn:E; simpl.
    - by apply (Hv u).
    - unfold Int64.max_int. lia. }
  rewrite (add_nonneg_exact _ _ Hb Hr Hpos).
  intros k. cbn [point_txs]. rewrite ledger_sum_app, (Hc k).
  unfold balance_of. simpl.
  rewrite lookup_insert. case_decide as Hk; simpl.
  - subst k. lia.
  - lia.
Qed.

Lemma flush_amounts f w : amounts_ok w → amounts_ok (flush f w).
Proof.
  unfold amounts_ok. intros H.
  destruct (flush_frame f w) as (-> & _).
  destruct (flush_buff f w) as [->| ->]; [done|].
  rewrite app_nil_r. by apply Forall_app in H as [? _].
Qed.

Lemma flush_tables f w : early f → tables_inv w → tables_inv (flush f w).
Proof.
  intros Hf (Hv & Hc & Ha). split; [by apply flush_valid|].
  split; [|by apply flush_amounts].
  apply flush_consistent; [done..|]. by apply Forall_app in Ha as [_ ?].
Qed.

Lemma step_tables w e :
  event_ok e → event_early e → tables_inv w → tables_inv (step w e).
Proof.
  intros He Hf (Hv & Hc & Ha). destruct e as [f u a|u a| |f|f]; unfold step;
    simpl in Hf.
  - split; [by apply addPoint_valid|]. split; [by apply addPoint_consistent|].
    destruct (addPoint f u a w) as [w' r] eqn:Hp.
    apply addPoint_frame in Hp as (Hq & Hb & _).
    unfold amounts_ok. simpl. by rewrite Hq, Hb.
  - unfold submit. case_match; [done|].
    split; [done|]. split; [done|]. unfold amounts_ok in *. simpl.
    apply Forall_app in Ha as [Hq Hb].
    apply Forall_app. split; [|done]. apply Forall_app. split; [done|].
    by constructor.
  - by destruct (running w).
  - destruct (running w); [by apply flush_tables|done].
  - destruct (running w); [|done]. destruct (opChan w) as [|p rest] eqn:Hq; [done|].
    assert (tables_inv (set_buff (buff w ++ [p]) (set_opChan rest w))) as Hi'.
    { split; [done|]. split; [done|]. unfold amounts_ok in *. simpl.
      rewrite Hq in Ha. inversion Ha as [|? ? Hp Hrest]; subst.
      apply Forall_app in Hrest as [? ?].
      apply Forall_app. split; [done|]. apply Forall_app. split; [done|].
      by constructor. }
    case_match; [by apply flush_tables|done].
Qed.

Lemma run_tables evs w :
  Forall event_ok evs → Forall event_early evs →
  tables_inv w → tables_inv (run w evs).
Proof.
  revert w. induction evs as [|e evs IH]; intros w He Hf Hi; simpl; [done|].
  inversion He; inversion Hf; subst. by apply IH, step_tables.
Qed.

Lemma init_tables : tables_inv init.
Proof.
  split; [|split].
  - intros u v. simpl. by rewrite lookup_empty.
  - intros u. unfold balance_of. simpl. by rewrite lookup_empty.
  - constructor.
Qed.

(** From the tables that [main] truncates, both invariants hold along
    every run of [int64] amounts in which no flush fails after it has
    written. *)
Lemma truncated_tables_inv evs :
  Forall event_ok evs → Forall event_early evs → tables_inv (run init evs).
Proof. intros He Hf. apply run_tables; [done|done|apply init_tables]. Qed.

(** ** A failed flush *)

(** C1, as the specification states it, fails: the flush of a buffered
    operation whose transaction fails at commit sends no callback at all,
    in particular none that carries a store error, and the buffer still
    holds the operation. *)
Lemma failed_flush_sends_nothing :
  (flush_tx (Some CallCommit) one_buffered).2 = inl (ErrStore CallCommit) ∧
  sent (flush (Some CallCommit) one_buffered) = [] ∧
  buff (flush (Some CallCommit) one_buffered) = [Op "u" 50 0].
Proof. vm_compute. done. Qed.

(** C1, amended: when the transaction of a flush fails (the read, the
    bulk insert, the bulk upsert or the commit), no callback is sent, the
    buffer keeps the whole batch, the queue is untouched and the worker
    keeps running; the batch waits for the next flush. What the failed
    flush has written to the tables is not part of this statement. *)
Theorem failed_flush_keeps_batch f w w1 e :
  flush_tx f w = (w1, inl e) →
  sent (flush f w) = sent w ∧
  buff (flush f w) = buff w ∧ opChan (flush f w) = opChan w ∧
  running (flush f w) = running w.
Proof.
  intros Htx.
  destruct (flush_cases f w) as [[_ ->]|[(w2 & e' & _ & Htx' & ->)|(w2 & _ & Htx' & _)]].
  - done.
  - by apply flush_tx_frame in Htx' as (? & ? & ? & ? & ?).
  - congruence.
Qed.

Lemma failed_flush_keeps_batch_witness :
  sent (flush (Some CallCommit) one_buffered) = sent one_buffered ∧
  buff (flush (Some CallCommit) one_buffered) = buff one_buffered ∧
  opChan (flush (Some CallCommit) one_buffered) = opChan one_buffered ∧
  running (flush (Some CallCommit) one_buffered) = running one_buffered.
Proof.
  apply (failed_flush_keeps_batch (Some CallCommit) one_buffered
           (flush_tx (Some CallCommit) one_buffered).1 (ErrStore CallCommit)).
  vm_compute. reflexivity.
Defined.

(** ** One callback per operation *)

(** C2, as the specification states it, fails: the operation submitted
    first is in the buffer when the worker returns, and whatever happens
    afterwards no callback is ever sent on its handle. *)
Lemma shutdown_abandons_buffered_op :
  buff abandoned = [Op "u" 50 0] ∧ running abandoned = false ∧
  ∀ evs, sends_on 0 (run abandoned evs) = 0%nat.
Proof.
  split; [done|]. split; [done|].
  intros evs. unfold sends_on. by rewrite stopped_run.
Qed.

(** C2, amended: over any run, at most one callback is sent on an
    operation's handle, never two; a handle made by [addPointStateful] is
    either still pending (in [opChan] or in the buffer) with no callback
    sent, or it has left the buffer with exactly one callback sent; no
    callback is sent on a handle that was never made. *)
Theorem callback_at_most_once evs h :
  (sends_on h (run init evs) ≤ 1)%nat ∧
  (sends_on h (run init evs) + occurrences h (pending (run init evs)))%nat =
    if decide (h < next_chan (run init evs))%nat then 1%nat else 0%nat.
Proof.
  pose proof (run_handles evs init init_handles) as Hi.
  apply (occurrences_perm h) in Hi.
  rewrite occurrences_app, occurrences_seq, <- sends_on_answered in Hi.
  split; [|done]. case_decide; lia.
Qed.

(** ** The invariants of the committed tables *)

(** C4: every balance stored by a committed transaction, of [addPoint]
    or of a flush, is not negative, along any run that starts from tables
    whose balances are not negative. *)
Theorem committed_balances_nonneg w evs u v :
  balances_valid (user_points (db w)) →
  user_points (db (run w evs)) !! u = Some v →
  0 <= v.
Proof.
  intros Hv Hu. by apply (run_valid evs w Hv u v).
Qed.

Lemma committed_balances_nonneg_witness :
  user_points (db (run init both_paths)) !! "u"%string = Some 0 ∧ 0 <= 0.
Proof.
  assert (user_points (db (run init both_paths)) !! "u"%string = Some 0) as Hu
    by (vm_compute; reflexivity).
  split; [exact Hu|].
  apply (committed_balances_nonneg init both_paths "u" 0); [|exact Hu].
  intros u v. simpl. rewrite lookup_empty. discriminate.
Defined.

(** Along any run of [int64] amounts in which no flush fails after it
    has written, from tables for which this holds, the amounts of a user's
    ledger rows add up to the user's stored balance ([0] without a row). *)
Lemma ledger_matches_balance_without_late_failure w evs u :
  tables_inv w → Forall event_ok evs → Forall event_early evs →
  ledger_sum u (point_txs (db (run w evs))) = balance_of u (db (run w evs)).
Proof.
  intros Hi He Hf. by destruct (run_tables evs w He Hf Hi) as (_ & Hc & _).
Qed.

(** C5, which the code breaks: the statements of a flush do not run in the
    transaction that [flush] opens. On the run [both_paths] the first
    flush appends its two rows, then its bulk upsert fails; the rows stay,
    the buffer is kept, and the next flush appends the same rows again. The
    ledger rows of ["u"] then add up to [-30] while the stored balance is
    [0]. *)
Theorem failed_flush_breaks_ledger :
  tx_row <$> point_txs (db (run init both_paths)) =
    [("u", 30); ("u", 12); ("u", -42); ("u", 12); ("u", -42)]%string ∧
  ledger_sum "u" (point_txs (db (run init both_paths))) = -30 ∧
  balance_of "u" (db (run init both_paths)) = 0.
Proof. vm_compute. done. Qed.

(** ** One operation of a batch *)

Lemma apply_op_reject b p :
  new_balance b p < 0 →
  apply_op b p =
    Batch (state b) (dirty b) (b_txLogs b)
          (b_callbacks b ++ [Callback (Some ErrInsufficientBalance)]) (b_uuid b).
Proof. intros H%Z.ltb_lt. unfold apply_op. by rewrite H. Qed.

Lemma apply_op_accept b p :
  0 <= new_balance b p →
  apply_op b p =
    Batch (<[userID p := new_balance b p]> (state b)) ({[userID p]} ∪ dirty b)
          (b_txLogs b ++ [TxLog (b_uuid b) (userID p) (amount p)])
          (b_callbacks b ++ [Callback None]) (S (b_uuid b)).
Proof. intros H%Z.ltb_ge. unfold apply_op. by rewrite H. Qed.

Lemma apply_op_verdict b p :
  b_callbacks (apply_op b p) = b_callbacks b ++ [verdict b p].
Proof. unfold apply_op, verdict. by case_match. Qed.

(** Operations of other users leave a user's in-memory balance alone. *)
Lemma apply_ops_other b ps u :
  u ∉ map userID ps → state (apply_ops b ps) !! u = state b !! u.
Proof.
  revert b. induction ps as [|p ps IH]; intros b Hu; simpl; [done|].
  fold (apply_ops (apply_op b p) ps). rewrite IH by set_solver.
  unfold apply_op. case_match; simpl; [done|].
  apply lookup_insert_ne. set_solver.
Qed.

Lemma apply_ops_txLogs_prefix b ps :
  ∃ l, b_txLogs (apply_ops b ps) = b_txLogs b ++ l.
Proof.
  revert b. induction ps as [|p ps IH]; intros b; simpl.
  - exists []. by rewrite app_nil_r.
  - fold (apply_ops (apply_op b p) ps).
    destruct (IH (apply_op b p)) as (l & ->).
    unfold apply_op. case_match; simpl; [by eexists|].
    rewrite <- app_assoc. by eexists.
Qed.

(** The callback recorded at the position of [p] is its verdict. *)
Lemma callbacks_at b pre p post :
  b_callbacks b = [] →
  b_callbacks (apply_ops b (pre ++ p :: post)) !! length pre =
    Some (verdict (apply_ops b pre) p).
Proof.
  intros Hb. rewrite apply_ops_app. simpl.
  fold (apply_ops (apply_op (apply_ops b pre) p) post).
  destruct (apply_ops_callbacks_prefix (apply_op (apply_ops b pre) p) post)
    as (cbs & -> & _).
  rewrite apply_op_verdict.
  pose proof (apply_ops_callbacks_length b pre) as Hl. rewrite Hb in Hl. simpl in Hl.
  rewrite <- app_assoc. simpl. by apply list_lookup_middle.
Qed.

(** After a committed flush the handle of the operation at a position of
    the buffer holds the callback recorded for it. *)
Lemma committed_flush_sent f w w1 pre p post :
  flush_tx f w = (w1, inr tt) →
  buff w = pre ++ p :: post →
  sent (flush f w) !! (length (sent w) + length pre)%nat =
    Some (done p, verdict (apply_ops (initial_batch w) pre) p).
Proof.
  intros Htx Hb.
  destruct (flush_cases f w) as [[E _]|[(w2 & e' & _ & Htx' & _)|(w2 & _ & Htx' & ->)]].
  - rewrite E in Hb. by destruct pre.
  - congruence.
  - assert (w2 = w1) as -> by congruence.
    apply flush_tx_commit in Htx as (_ & Hc & _).
    simpl. rewrite lookup_app_r by lia.
    replace (length (sent w) + length pre - length (sent w))%nat
      with (length pre) by lia.
    rewrite lookup_zip_with, Hc, Hb, list_lookup_fmap, list_lookup_middle by done.
    simpl. unfold batch_of. rewrite Hb, callbacks_at by done. done.
Qed.

Lemma committed_flush_ledger f w w1 :
  flush_tx f w = (w1, inr tt) →
  point_txs (db (flush f w)) = point_txs (db w) ++ b_txLogs (batch_of w).
Proof.
  intros Htx.
  destruct (flush_cases f w) as [[E _]|[(w2 & e' & _ & Htx' & _)|(w2 & _ & Htx' & ->)]].
  - unfold flush. rewrite E. simpl.
    apply flush_tx_commit in Htx as (_ & _ & Hl & _).
    unfold batch_of. rewrite E. simpl. by rewrite app_nil_r.
  - congruence.
  - assert (w2 = w1) as -> by congruence.
    apply flush_tx_commit in Htx as (Hdb & _). simpl. by rewrite Hdb.
Qed.

(** ** The flush engine, operation by operation *)

(** C3: in a flush that commits, the operations are applied in buffer
    order to the variables of the loop. For the operation [p] that
    follows the operations [pre], with [new = state[user] + amount] in
    [int64]: when [new < 0] only the callback "insufficient balance" is
    recorded, and state, dirty set and rows stay as they are; otherwise
    the state of the user becomes [new], the user is dirty, one row
    [(fresh id, user, amount)] is appended and the callback is [nil]. The
    callback is sent on the handle of [p]; the rows of the batch are what
    the flush appends to [point_txs]; and the next operation of the same
    user in the batch starts from [new]. *)
Theorem flush_applies_in_buffer_order f w w1 pre p post :
  flush_tx f w = (w1, inr tt) →
  buff w = pre ++ p :: post →
  let before := apply_ops (initial_batch w) pre in
  let new := Int64.add (default 0 (state before !! userID p)) (amount p) in
  batch_of w = apply_ops (apply_op before p) post ∧
  point_txs (db (flush f w)) = point_txs (db w) ++ b_txLogs (batch_of w) ∧
  (new < 0 →
     apply_op before p =
       Batch (state before) (dirty before) (b_txLogs before)
             (b_callbacks before ++ [Callback (Some ErrInsufficientBalance)])
             (b_uuid before) ∧
     sent (flush f w) !! (length (sent w) + length pre)%nat =
       Some (done p, Callback (Some ErrInsufficientBalance))) ∧
  (0 <= new →
     apply_op before p =
       Batch (<[userID p := new]> (state before)) ({[userID p]} ∪ dirty before)
             (b_txLogs before ++ [TxLog (b_uuid before) (userID p) (amount p)])
             (b_callbacks before ++ [Callback None]) (S (b_uuid before)) ∧
     sent (flush f w) !! (length (sent w) + length pre)%nat =
       Some (done p, Callback None) ∧
     ∀ mid q rest,
       post = mid ++ q :: rest → userID q = userID p →
       userID p ∉ map userID mid →
       new_balance (apply_ops (apply_op before p) mid) q =
         Int64.add new (amount q)).
Proof.
  intros Htx Hb before new.
  pose proof (committed_flush_sent _ _ _ _ _ _ Htx Hb) as Hs.
  fold before in Hs. unfold verdict in Hs.
  fold (new_balance before p) in new.
  split; [|split; [|split]].
  - unfold batch_of. rewrite Hb, apply_ops_app. done.
  - by apply (committed_flush_ledger f w w1).
  - intros Hneg. split; [by apply apply_op_reject|].
    apply Z.ltb_lt in Hneg. fold new in Hs. by rewrite Hneg in Hs.
  - intros Hpos. pose proof (apply_op_accept before p Hpos) as Ha.
    split; [done|]. split.
    { apply Z.ltb_ge in Hpos. fold new in Hs. by rewrite Hpos in Hs. }
    intros mid q rest _ Hq Hmid. unfold new_balance at 1.
    rewrite apply_ops_other by (by rewrite Hq).
    rewrite Hq, Ha. simpl. by rewrite lookup_insert_eq.
Qed.

Lemma flush_applies_in_buffer_order_witness :
  flush_tx None two_debits = ((flush_tx None two_debits).1, inr tt) ∧
  buff two_debits = [] ++ Op "u" (-20) 0 :: [Op "u" (-20) 1] ∧
  sent (flush None two_debits) !! 0%nat = Some (0%nat, Callback None) ∧
  new_balance (apply_op (initial_batch two_debits) (Op "u" (-20) 0))
              (Op "u" (-20) 1) = Int64.add 10 (-20).
Proof.
  assert (flush_tx None two_debits = ((flush_tx None two_debits).1, inr tt)) as Htx
    by (vm_compute; reflexivity).
  assert (buff two_debits = [] ++ Op "u" (-20) 0 :: [Op "u" (-20) 1]) as Hb
    by (vm_compute; reflexivity).
  split; [exact Htx|]. split; [exact Hb|].
  destruct (flush_applies_in_buffer_order None two_debits _ [] (Op "u" (-20) 0)
              [Op "u" (-20) 1] Htx Hb) as (_ & _ & _ & Hacc).
  destruct Hacc as (_ & Hsent & Hnext); [vm_compute; discriminate|].
  split; [exact Hsent|].
  apply (Hnext [] (Op "u" (-20) 1) []); [reflexivity|reflexivity|].
  simpl. apply not_elem_of_nil.
Defined.



(** ** Zero amounts and balances of exactly zero *)

Lemma apply_ops_initial_valid w pre :
  balances_valid (user_points (db w)) →
  balances_valid (state (apply_ops (initial_batch w) pre)).
Proof.
  intros Hv. apply apply_ops_valid. simpl. intros k v.
  rewrite selectBalances_lookup. case_decide; [apply Hv|done].
Qed.

(** C7: in a flush that commits, over tables whose balances are not
    negative, an operation of amount zero gets the [nil] callback and one
    ledger row, and so does a debit that brings the balance to exactly
    zero, which is then the user's in-memory balance: only a result that
    is strictly negative is rejected. *)
Theorem zero_amount_and_zero_balance_accepted f w w1 pre p post :
  balances_valid (user_points (db w)) →
  flush_tx f w = (w1, inr tt) →
  buff w = pre ++ p :: post →
  let before := apply_ops (initial_batch w) pre in
  amount p = 0 ∨ default 0 (state before !! userID p) + amount p = 0 →
  sent (flush f w) !! (length (sent w) + length pre)%nat =
    Some (done p, Callback None) ∧
  b_txLogs (apply_op before p) =
    b_txLogs before ++ [TxLog (b_uuid before) (userID p) (amount p)] ∧
  (∃ later, point_txs (db (flush f w)) =
     point_txs (db w) ++ b_txLogs before ++
     TxLog (b_uuid before) (userID p) (amount p) :: later) ∧
  (default 0 (state before !! userID p) + amount p = 0 →
     state (apply_op before p) !! userID p = Some 0).
Proof.
  intros Hv Htx Hb before Hcase.
  pose proof (state_default_valid before (userID p)
                (apply_ops_initial_valid w pre Hv)) as Hbal.
  assert (new_balance before p = default 0 (state before !! userID p) + amount p)
    as Hnew.
  { unfold new_balance, Int64.add. apply wrap_id.
    unfold Int64.in_range, Int64.min_int, Int64.max_int in *.
    destruct Hcase as [->| ->]; lia. }
  assert (0 <= new_balance before p) as Hpos by (destruct Hcase; lia).
  pose proof (apply_op_accept before p Hpos) as Ha.
  split; [|split; [|split]].
  - rewrite (committed_flush_sent f w w1 pre p post Htx Hb).
    fold before. unfold verdict. apply Z.ltb_ge in Hpos. by rewrite Hpos.
  - by rewrite Ha.
  - rewrite (committed_flush_ledger f w w1 Htx). unfold batch_of.
    rewrite Hb, apply_ops_app. simpl.
    fold (apply_ops (apply_op (apply_ops (initial_batch w) pre) p) post).
    fold before.
    destruct (apply_ops_txLogs_prefix (apply_op before p) post) as (later & ->).
    rewrite Ha. simpl. exists later. by rewrite <- !app_assoc.
  - intros Hz. rewrite Ha. simpl. rewrite lookup_insert_eq. congruence.
Qed.

Lemma zero_amount_and_zero_balance_accepted_witness :
  buff zero_then_debit = [] ++ Op "u" 0 0 :: [Op "u" (-30) 1] ∧
  sent (flush None zero_then_debit) !! 0%nat = Some (0%nat, Callback None) ∧
  buff zero_then_debit = [Op "u" 0 0] ++ Op "u" (-30) 1 :: [] ∧
  sent (flush None zero_then_debit) !! 1%nat = Some (1%nat, Callback None).
Proof.
  assert (balances_valid (user_points (db zero_then_debit))) as Hv.
  { apply (run_valid _ init). intros u v. simpl. rewrite lookup_empty. discriminate. }
  assert (flush_tx None zero_then_debit = ((flush_tx None zero_then_debit).1, inr tt))
    as Htx by (vm_compute; reflexivity).
  assert (buff zero_then_debit = [] ++ Op "u" 0 0 :: [Op "u" (-30) 1]) as Hb0
    by (vm_compute; reflexivity).
  assert (buff zero_then_debit = [Op "u" 0 0] ++ Op "u" (-30) 1 :: []) as Hb1
    by (vm_compute; reflexivity).
  split; [exact Hb0|]. split; [|split; [exact Hb1|]].
  - apply (zero_amount_and_zero_balance_accepted None zero_then_debit _ []
             (Op "u" 0 0) [Op "u" (-30) 1] Hv Htx Hb0).
    left. reflexivity.
  - apply (zero_amount_and_zero_balance_accepted None zero_then_debit _
             [Op "u" 0 0] (Op "u" (-30) 1) [] Hv Htx Hb1).
    right. vm_compute. reflexivity.
Defined.

(** ** The order of the callbacks *)

Lemma flush_pipeline f w : pipeline (flush f w) = pipeline w.
Proof.
  unfold pipeline, answered.
  destruct (flush_cases f w) as [[_ ->]|[(w1 & e & _ & Htx & ->)|(w1 & _ & Htx & ->)]].
  - done.
  - apply flush_tx_frame in Htx as (-> & -> & -> & _). done.
  - pose proof (flush_tx_commit _ _ _ _ Htx) as (_ & Hc & _).
    apply flush_tx_frame in Htx as (Hq & Hb & Hs & _).
    simpl. rewrite Hq, fmap_app, fst_zip.
    + by rewrite <- app_assoc.
    + rewrite Hc, batch_of_callbacks_length. by rewrite length_map.
Qed.

Lemma step_pipeline w e :
  pipeline w = seq 0 (next_chan w) →
  pipeline (step w e) = seq 0 (next_chan (step w e)).
Proof.
  intros Hi. destruct e as [f u a|u a| |f|f]; unfold step.
  - destruct (addPoint f u a w) as [w' r] eqn:Ha.
    apply addPoint_frame in Ha as (Hq & Hb & Hs & _ & Hn).
    unfold pipeline, answered in *. simpl. by rewrite Hq, Hb, Hs, Hn.
  - unfold submit. case_match; [done|].
    unfold pipeline, answered in *.
    cbn [next_chan sent opChan buff set_next_chan set_opChan].
    rewrite seq_S, <- Hi, map_app. simpl. by rewrite <- !app_assoc.
  - by destruct (running w).
  - destruct (running w); [|done]. rewrite flush_pipeline.
    by destruct (flush_frame f w) as (_ & -> & _).
  - destruct (running w); [|done]. destruct (opChan w) as [|p rest] eqn:Hq; [done|].
    assert (pipeline (set_buff (buff w ++ [p]) (set_opChan rest w)) =
            seq 0 (next_chan w)) as Hi'.
    { rewrite <- Hi. unfold pipeline, answered. simpl.
      rewrite Hq, map_app. simpl. by rewrite <- app_assoc. }
    case_match; [|done]. rewrite flush_pipeline.
    by destruct (flush_frame f (set_buff (buff w ++ [p]) (set_opChan rest w)))
      as (_ & -> & _).
Qed.

Lemma run_pipeline evs w :
  pipeline w = seq 0 (next_chan w) →
  pipeline (run w evs) = seq 0 (next_chan (run w evs)).
Proof.
  revert w. induction evs as [|e evs IH]; intros w Hi; simpl; [done|].
  by apply IH, step_pipeline.
Qed.

(** X1: callbacks are sent in the order of submission and without gaps:
    along any run, the i-th send ever made is on the handle of the i-th
    operation submitted, and the operations not yet answered are, in
    order, the buffered ones and then the queued ones. *)
Theorem callbacks_in_submission_order evs :
  pipeline (run init evs) = seq 0 (next_chan (run init evs)) ∧
  ∀ i h cb, sent (run init evs) !! i = Some (h, cb) → h = i.
Proof.
  assert (pipeline (run init evs) = seq 0 (next_chan (run init evs))) as Hp
    by (by apply run_pipeline).
  split; [done|]. intros i h cb Hi.
  assert (pipeline (run init evs) !! i = Some h) as Hl.
  { unfold pipeline, answered. apply lookup_app_l_Some.
    by rewrite list_lookup_fmap, Hi. }
  rewrite Hp in Hl. apply lookup_seq in Hl as [-> _]. done.
Qed.

(** ** The bounds of the queue and of the buffer *)

Lemma step_opChan_bound w e :
  Z.of_nat (length (opChan w)) <= opChanCap →
  Z.of_nat (length (opChan (step w e))) <= opChanCap.
Proof.
  intros Hb. destruct e as [f u a|u a| |f|f]; unfold step.
  - destruct (addPoint f u a w) as [w' r] eqn:Ha.
    apply addPoint_frame in Ha as (Hq & _). simpl. by rewrite Hq.
  - unfold submit. case_match eqn:Hfull; [done|]. simpl.
    apply Z.leb_gt in Hfull. rewrite length_app. simpl. lia.
  - by destruct (running w).
  - destruct (running w); [|done]. by destruct (flush_frame f w) as (-> & _).
  - destruct (running w); [|done]. destruct (opChan w) as [|p rest] eqn:Hq.
    { by rewrite Hq. }
    simpl in Hb.
    case_match; [destruct (flush_frame f (set_buff (buff w ++ [p]) (set_opChan rest w)))
                   as (-> & _)|]; simpl; lia.
Qed.

(** X2: the queue never holds more than its capacity of 20000
    operations, whatever the producers and the store do: a producer that
    finds it full does not enqueue. *)
Theorem queue_within_capacity evs :
  Z.of_nat (length (opChan (run init evs))) <= 20000.
Proof.
  assert (∀ w, Z.of_nat (length (opChan w)) <= opChanCap →
               Z.of_nat (length (opChan (run w evs))) <= opChanCap) as H.
  { induction evs as [|e evs IH]; intros w Hb; simpl; [done|].
    by apply IH, step_opChan_bound. }
  apply (H init). unfold opChanCap. simpl. lia.
Qed.

(** With a store that does not fail the transaction of a flush commits. *)
Lemma flush_tx_healthy w : ∃ w1, flush_tx None w = (w1, inr tt).
Proof.
  unfold flush_tx, RunInTx. simpl.
  destruct (flush_body None (map userID (buff w)) w) as [w1 [e|[]]] eqn:Hb; [|by eexists].
  exfalso. revert Hb. tx_unfold. simpl.
  repeat (case_match; simpl in *; simplify_eq); done.
Qed.

Lemma flush_healthy_buff w : buff (flush None w) = [].
Proof.
  destruct (flush_cases None w) as [[E ->]|[(w1 & e & _ & Htx & _)|(w1 & _ & _ & ->)]].
  - done.
  - destruct (flush_tx_healthy w) as [w2 Hw2]. congruence.
  - done.
Qed.

Lemma step_buff_bound w e :
  healthy e →
  Z.of_nat (length (buff w)) < buffSize →
  Z.of_nat (length (buff (step w e))) < buffSize.
Proof.
  intros He Hb. destruct e as [f u a|u a| |f|f]; unfold step; simpl in He.
  - destruct (addPoint f u a w) as [w' r] eqn:Ha.
    apply addPoint_frame in Ha as (_ & Hq & _). simpl. by rewrite Hq.
  - unfold submit. by case_match.
  - by destruct (running w).
  - subst f. destruct (running w); [|done]. by rewrite flush_healthy_buff.
  - subst f. destruct (running w); [|done]. destruct (opChan w) as [|p rest]; [done|].
    case_match eqn:Hfull; [by rewrite flush_healthy_buff|].
    by apply Z.leb_gt in Hfull.
Qed.

(** X3: while the store does not fail in the worker's transactions, the
    buffer stays below the flush threshold of 7000 operations in every
    state between two events. *)
Theorem buffer_below_threshold evs :
  Forall healthy evs →
  Z.of_nat (length (buff (run init evs))) < 7000.
Proof.
  assert (∀ w, Forall healthy evs → Z.of_nat (length (buff w)) < buffSize →
               Z.of_nat (length (buff (run w evs))) < buffSize) as H.
  { induction evs as [|e evs IH]; intros w He Hb; simpl; [done|].
    inversion He; subst. by apply IH, step_buff_bound. }
  intros He. by apply (H init).
Qed.

Lemma buffer_below_threshold_witness :
  Z.of_nat (length (buff (run init [EvSubmit "u" 5; EvRecv None]))) < 7000.
Proof.
  apply (buffer_below_threshold [EvSubmit "u" 5; EvRecv None]).
  repeat constructor.
Defined.

(** ** What a batch records *)

Lemma accepted_cons p ps cb cbs :
  accepted (p :: ps) (cb :: cbs) =
    if is_ok cb then p :: accepted ps cbs else accepted ps cbs.
Proof.
  unfold accepted. simpl. rewrite filter_cons. simpl.
  destruct (is_ok cb); simpl; done.
Qed.

(** The loop appends one callback per operation and one row per accepted
    operation, with consecutive identifiers, and marks dirty the users of
    the rows. *)
Lemma apply_ops_trace ps : ∀ b, ∃ cbs logs,
  b_callbacks (apply_ops b ps) = b_callbacks b ++ cbs ∧
  b_txLogs (apply_ops b ps) = b_txLogs b ++ logs ∧
  length cbs = length ps ∧
  tx_row <$> logs = op_row <$> accepted ps cbs ∧
  txID <$> logs = seq (b_uuid b) (length logs) ∧
  b_uuid (apply_ops b ps) = (b_uuid b + length logs)%nat ∧
  dirty (apply_ops b ps) = dirty b ∪ list_to_set (tx_userID <$> logs).
Proof.
  induction ps as [|p ps IH]; intros b.
  { exists [], []. simpl. rewrite !app_nil_r.
    repeat split; try done; try lia; set_solver. }
  simpl. fold (apply_ops (apply_op b p) ps).
  destruct (IH (apply_op b p)) as (cbs & logs & Hc & Hl & Hn & Hr & Hi & Hu & Hd).
  destruct (Z_lt_le_dec (new_balance b p) 0) as [Hneg|Hpos].
  - rewrite (apply_op_reject b p Hneg) in *. simpl in *.
    exists (Callback (Some ErrInsufficientBalance) :: cbs), logs.
    rewrite Hc, Hl, <- app_assoc, accepted_cons. simpl.
    repeat split; try done. by rewrite Hn.
  - rewrite (apply_op_accept b p Hpos) in *. simpl in *.
    exists (Callback None :: cbs), (TxLog (b_uuid b) (userID p) (amount p) :: logs).
    rewrite Hc, Hl, <- !app_assoc, accepted_cons. simpl.
    repeat split; try done.
    + by rewrite Hn.
    + by f_equal.
    + by f_equal.
    + rewrite Hu. lia.
    + rewrite Hd. set_solver.
Qed.

Lemma batch_of_trace w : ∃ logs,
  b_txLogs (batch_of w) = logs ∧
  length (b_callbacks (batch_of w)) = length (buff w) ∧
  tx_row <$> logs = op_row <$> accepted (buff w) (b_callbacks (batch_of w)) ∧
  txID <$> logs = seq (next_uuid w) (length logs) ∧
  b_uuid (batch_of w) = (next_uuid w + length logs)%nat ∧
  dirty (batch_of w) = list_to_set (tx_userID <$> logs).
Proof.
  unfold batch_of.
  destruct (apply_ops_trace (buff w) (initial_batch w))
    as (cbs & logs & Hc & Hl & Hn & Hr & Hi & Hu & Hd).
  simpl in *. exists logs. rewrite Hc, Hl, Hd.
  repeat split; try done. set_solver.
Qed.

Lemma ledger_sum_rows u logs : ∀ ps,
  tx_row <$> logs = op_row <$> ps → ledger_sum u logs = credited u ps.
Proof.
  induction logs as [|t logs IH]; intros [|p ps] Hr; try done.
  rewrite !fmap_cons in Hr. unfold tx_row at 1, op_row at 1 in Hr.
  injection Hr as Hu Ha Hr.
  simpl. rewrite Hu, Ha, (IH ps Hr). done.
Qed.

(** X4: in a flush that commits, the rows appended to [point_txs] are, in
    buffer order, the user and amount of exactly the operations whose
    callback is [nil]; a rejected operation leaves no row; and the
    callbacks are sent on the handles of the buffer in order. *)
Theorem committed_rows_are_the_accepted_ops f w w1 :
  flush_tx f w = (w1, inr tt) →
  buff w ≠ [] →
  ∃ logs,
    point_txs (db (flush f w)) = point_txs (db w) ++ logs ∧
    tx_row <$> logs = op_row <$> accepted (buff w) (callbacks w1) ∧
    sent (flush f w) = sent w ++ zip (done <$> buff w) (callbacks w1) ∧
    length (callbacks w1) = length (buff w).
Proof.
  intros Htx Hne.
  destruct (batch_of_trace w) as (logs & Hl & Hn & Hr & _).
  pose proof (flush_tx_commit _ _ _ _ Htx) as (_ & Hc & _).
  exists logs. rewrite Hc.
  split; [by rewrite (committed_flush_ledger f w w1 Htx), Hl|].
  split; [done|]. split; [|done].
  destruct (flush_cases f w) as [[E _]|[(w2 & e' & _ & Htx' & _)|(w2 & _ & Htx' & ->)]].
  - done.
  - congruence.
  - assert (w2 = w1) as -> by congruence. simpl. by rewrite Hc.
Qed.

Lemma committed_rows_are_the_accepted_ops_witness :
  ∃ logs,
    point_txs (db (flush None two_debits)) = point_txs (db two_debits) ++ logs ∧
    tx_row <$> logs =
      op_row <$> accepted (buff two_debits) (callbacks (flush_tx None two_debits).1).
Proof.
  destruct (committed_rows_are_the_accepted_ops None two_debits
              (flush_tx None two_debits).1) as (logs & H1 & H2 & _).
  - vm_compute. reflexivity.
  - vm_compute. discriminate.
  - exists logs. split; [exact H1|exact H2].
Defined.

(** X5: a flush that commits moves the stored balance of every user by
    exactly the sum of the amounts of that user's accepted operations;
    users without an accepted operation keep their balance. *)
Theorem committed_flush_moves_balance_by_accepted f w w1 u :
  balances_valid (user_points (db w)) →
  Forall (λ p, Int64.in_range (amount p)) (buff w) →
  flush_tx f w = (w1, inr tt) →
  balance_of u (db (flush f w)) =
    balance_of u (db w) + credited u (accepted (buff w) (callbacks w1)).
Proof.
  intros Hv Hr Htx.
  destruct (batch_of_inv w Hv Hr) as (_ & Hs & Hd).
  destruct (batch_of_trace w) as (logs & Hl & _ & Hrows & _).
  pose proof (flush_tx_commit _ _ _ _ Htx) as (Hdb & Hc & _).
  rewrite Hc, <- (ledger_sum_rows u logs _ Hrows), <- Hl.
  assert (db (flush f w) = db w1) as ->.
  { destruct (flush_cases f w) as [[E ->]|[(w2 & e' & _ & Htx' & _)|(w2 & _ & Htx' & ->)]].
    - rewrite Hdb. unfold batch_of. rewrite E. simpl. rewrite app_nil_r.
      by destruct (db w).
    - congruence.
    - by assert (w2 = w1) as -> by congruence. }
  rewrite Hdb. unfold balance_of. simpl. rewrite upsertAll_lookup.
  case_decide as Hk.
  - simpl. rewrite (Hs u). apply elem_of_elements in Hk.
    apply apply_ops_dirty in Hk as [Hk|Hk]; [set_solver|].
    rewrite selectBalances_lookup. by rewrite decide_True by done.
  - rewrite Hd; [lia|]. by rewrite <- elem_of_elements.
Qed.

Lemma committed_flush_moves_balance_by_accepted_witness :
  balance_of "u" (db (flush None two_debits)) =
    balance_of "u" (db two_debits) +
    credited "u" (accepted (buff two_debits) (callbacks (flush_tx None two_debits).1)).
Proof.
  apply (committed_flush_moves_balance_by_accepted None two_debits).
  - apply (run_valid _ init). intros u v. simpl. rewrite lookup_empty. discriminate.
  - unfold Int64.in_range, Int64.min_int, Int64.max_int.
    repeat constructor; simpl; lia.
  - vm_compute. reflexivity.
Defined.

(** X6: a flush writes no balance of a user who has no operation in the
    buffer, whether it commits or fails. *)
Theorem flush_leaves_other_users f w u :
  u ∉ map userID (buff w) →
  user_points (db (flush f w)) !! u = user_points (db w) !! u.
Proof.
  intros Hu.
  destruct (flush_db_cases f w) as [(-> & _)|[(-> & _)|(-> & _)]]; simpl.
  - done.
  - done.
  - rewrite upsertAll_lookup. case_decide as Hk; [|done].
    apply elem_of_elements, apply_ops_dirty in Hk as [Hk|Hk]; [set_solver|done].
Qed.

Lemma flush_leaves_other_users_witness :
  user_points (db (flush None two_debits)) !! "v"%string =
  user_points (db two_debits) !! "v"%string.
Proof.
  apply (flush_leaves_other_users None two_debits "v").
  vm_compute. intros H. inversion H as [|? ? ? H1]; subst.
  inversion H1 as [|? ? ? H2]; subst. inversion H2.
Defined.

(** ** The balance check *)

Lemma add_negative_iff b a :
  0 <= b <= Int64.max_int → Int64.in_range a →
  Int64.add b a < 0 ↔ b + a < 0 ∨ Int64.max_int < b + a.
Proof.
  intros Hb Ha. pose proof Ha as Ha'.
  unfold Int64.in_range, Int64.min_int, Int64.max_int in *.
  destruct (Z_le_gt_dec 0 (b + a)) as [Hpos|Hneg].
  - destruct (Z_le_gt_dec (b + a) (2 ^ 63 - 1)) as [Hle|Hgt].
    + unfold Int64.add, Int64.wrap. rewrite Z.mod_small by lia. lia.
    + unfold Int64.add, Int64.wrap.
      assert (E : (b + a + 2 ^ 63) mod 2 ^ 64 = b + a + 2 ^ 63 - 2 ^ 64).
      { symmetry. apply Z.mod_unique with (q := 1); lia. }
      lia.
  - unfold Int64.add, Int64.wrap. rewrite Z.mod_small by lia. lia.
Qed.

(** X7: with [int64] operands and a stored balance that is not negative,
    the loop rejects an operation exactly when the true sum is negative or
    exceeds the largest [int64]; an accepted operation stores the true sum.
    A credit that would overflow is refused as "insufficient balance" and
    no wrapped value is ever stored. *)
Theorem balance_check_is_exact b p :
  balances_valid (state b) →
  Int64.in_range (amount p) →
  let sum := default 0 (state b !! userID p) + amount p in
  (sum < 0 ∨ Int64.max_int < sum →
     apply_op b p =
       Batch (state b) (dirty b) (b_txLogs b)
             (b_callbacks b ++ [Callback (Some ErrInsufficientBalance)]) (b_uuid b)) ∧
  (0 <= sum <= Int64.max_int →
     apply_op b p =
       Batch (<[userID p := sum]> (state b)) ({[userID p]} ∪ dirty b)
             (b_txLogs b ++ [TxLog (b_uuid b) (userID p) (amount p)])
             (b_callbacks b ++ [Callback None]) (S (b_uuid b))).
Proof.
  intros Hv Hr sum.
  pose proof (state_default_valid b (userID p) Hv) as Hb.
  pose proof (add_negative_iff _ _ Hb Hr) as Hiff.
  fold (new_balance b p) in Hiff. fold sum in Hiff.
  split.
  - intros Hbad. apply apply_op_reject. by apply Hiff.
  - intros Hok.
    assert (0 <= new_balance b p) as Hpos.
    { destruct (Z_lt_le_dec (new_balance b p) 0) as [Hneg|]; [|done].
      apply Hiff in Hneg. lia. }
    rewrite (apply_op_accept b p Hpos).
    unfold new_balance in *. by rewrite (add_nonneg_exact _ _ Hb Hr Hpos).
Qed.

Lemma balance_check_is_exact_witness :
  apply_op (Batch (<["u" := Int64.max_int]> ∅) ∅ [] [] 0) (Op "u" 1 0) =
    Batch (<["u" := Int64.max_int]> ∅) ∅ [] [Callback (Some ErrInsufficientBalance)] 0.
Proof.
  destruct (balance_check_is_exact (Batch (<["u" := Int64.max_int]> ∅) ∅ [] [] 0)
              (Op "u" 1 0)) as [H _].
  - intros u v. simpl. rewrite lookup_insert. case_decide; [|by rewrite lookup_empty].
    intros [= <-]. unfold Int64.max_int. lia.
  - unfold Int64.in_range, Int64.min_int, Int64.max_int. simpl. lia.
  - apply H. right. vm_compute. reflexivity.
Defined.

(** X8: [addPoint] over a stored balance that is not negative, with an
    [int64] amount: it returns [nil] exactly when no call to the store
    fails and the true sum is a non-negative [int64]; then the balance is
    the true sum and one row is appended. In every other case the tables
    are as before, and with a store that does not fail the error is
    "insufficient balance". *)
Theorem addPoint_outcome f u a w w' r :
  balances_valid (user_points (db w)) →
  Int64.in_range a →
  addPoint f u a w = (w', r) →
  let sum := balance_of u (db w) + a in
  (r = inr tt ↔ f = None ∧ 0 <= sum <= Int64.max_int) ∧
  (r = inr tt →
     db w' = MkStore (<[u := sum]> (user_points (db w)))
                     (point_txs (db w) ++ [TxLog (next_uuid w) u a])) ∧
  (∀ e, r = inl e → db w' = db w) ∧
  (f = None → r ≠ inr tt → r = inl ErrInsufficientBalance).
Proof.
  intros Hv Hr Ha sum.
  assert (0 <= balance_of u (db w) <= Int64.max_int) as Hb.
  { unfold balance_of. destruct (user_points (db w) !! u) eqn:E; simpl.
    - by apply (Hv u).
    - unfold Int64.max_int. lia. }
  pose proof (add_negative_iff _ _ Hb Hr) as Hiff. fold sum in Hiff.
  pose proof (add_nonneg_exact _ _ Hb Hr) as Hex. fold sum in Hex.
  revert Ha. tx_unfold. unfold balance_of in *. simpl.
  destruct f as [[]|]; simpl;
    try (destruct (_ <? 0) eqn:Hneg; simpl;
         [apply Z.ltb_lt in Hneg|apply Z.ltb_ge in Hneg]);
    intros [= <- <-]; simpl;
    repeat split; try done; try (intros [_ ?]; lia); try (intros [? _]; done);
    try (intros _; rewrite Hex by done; done);
    try (apply Hiff in Hneg; lia); try (rewrite <- Hex by done; lia).
Qed.

Lemma addPoint_outcome_witness :
  (addPoint None "u" (-7) (addPoint None "u" 5 init).1).2 =
    inl ErrInsufficientBalance.
Proof.
  destruct (addPoint_outcome None "u" (-7) (addPoint None "u" 5 init).1
              (addPoint None "u" (-7) (addPoint None "u" 5 init).1).1
              (addPoint None "u" (-7) (addPoint None "u" 5 init).1).2)
    as (_ & _ & _ & H).
  - apply (addPoint_valid None "u" 5 init).
    intros u v. simpl. rewrite lookup_empty. discriminate.
  - unfold Int64.in_range, Int64.min_int, Int64.max_int. lia.
  - by destruct (addPoint None "u" (-7) (addPoint None "u" 5 init).1).
  - apply H; [reflexivity|]. vm_compute. discriminate.
Defined.

(** ** The identifiers of the rows *)

Lemma addPoint_uuid f u a w w' r :
  addPoint f u a w = (w', r) →
  (next_uuid w ≤ next_uuid w')%nat ∧
  (r = inr tt → next_uuid w' = S (next_uuid w)).
Proof.
  tx_unfold. simpl.
  destruct (fails f CallRead); simpl; [by intros [= <- <-]|].
  destruct (_ <? 0); simpl; [by intros [= <- <-]|].
  destruct (fails f CallUpsert); simpl; [by intros [= <- <-]|].
  destruct (fails f CallInsertTx); simpl; [intros [= <- <-]; simpl; split; [lia|done]|].
  destruct (fails f CallCommit); simpl; intros [= <- <-]; simpl; split; try done; lia.
Qed.

Lemma flush_body_uuid f w w' r :
  flush_body f (map userID (buff w)) w = (w', r) →
  next_uuid w' = next_uuid w ∨ next_uuid w' = b_uuid (batch_of w).
Proof.
  destruct r as [e|[]].
  - unfold flush_body. intros H.
    apply bind_err in H as [H|(w1 & m & H1 & H)].
    { left. by apply restoreState_err in H as ->. }
    apply restoreState_ok in H1 as [-> ->].
    apply bind_err in H as [H|(w1 & w2 & H1 & H)]; [done|].
    injection H1 as <- <-.
    apply bind_err in H as [H|(w2 & [] & H1 & H)]; [done|].
    injection H1 as <-.
    apply bind_err in H as [H|(w3 & [] & H1 & H)].
    { right. by apply batchInsertTxLogs_err in H as ->. }
    apply batchInsertTxLogs_ok in H1. apply saveDirtyState_err in H.
    right. subst. done.
  - intros H. apply flush_body_ok in H. right. by subst w'.
Qed.

Lemma flush_tx_uuid f w w' r :
  flush_tx f w = (w', r) → (next_uuid w ≤ next_uuid w')%nat.
Proof.
  unfold flush_tx.
  destruct (flush_body f (map userID (buff w)) w) as [w1 r1] eqn:Hb.
  apply flush_body_uuid in Hb.
  destruct (batch_of_trace w) as (logs & _ & _ & _ & _ & Hu & _).
  assert (next_uuid w ≤ next_uuid w1)%nat by (destruct Hb; lia).
  destruct r1 as [e|a]; [by intros [= <- <-]|].
  by case_match; intros [= <- <-].
Qed.

Lemma flush_uuid_inv f w : uuid_inv w → uuid_inv (flush f w).
Proof.
  intros [Hnd Hlt].
  destruct (batch_of_trace w) as (logs & Hl & _ & _ & Hids & Hu & _).
  assert (NoDup (txID <$> point_txs (db w) ++ logs) ∧
          ∀ i, i ∈ txID <$> point_txs (db w) ++ logs →
               (i < next_uuid w + length logs)%nat) as [Hnd' Hlt'].
  { rewrite fmap_app, Hids. split.
    - apply NoDup_app. split; [done|]. split; [|apply NoDup_seq].
      intros i Hi Hs. apply Hlt in Hi. apply elem_of_seq in Hs. lia.
    - intros i [Hi|Hi]%elem_of_app.
      + apply Hlt in Hi. lia.
      + apply elem_of_seq in Hi. lia. }
  unfold uuid_inv.
  destruct (flush_db_cases f w) as [(-> & Hn)|[(-> & ->)|(-> & ->)]]; simpl;
    rewrite ?Hu, ?Hl; [|done|done].
  split; [done|]. intros i Hi. apply Hlt in Hi. rewrite Hu in Hn. lia.
Qed.

Lemma step_uuid_inv w e : uuid_inv w → uuid_inv (step w e).
Proof.
  intros Hi. destruct e as [f u a|u a| |f|f]; unfold step.
  - destruct Hi as [Hnd Hlt].
    destruct (addPoint f u a w) as [w' r] eqn:Ha.
    pose proof (addPoint_uuid _ _ _ _ _ _ Ha) as [Hmono Hsucc].
    apply addPoint_cases in Ha as [(e & _ & Hdb)|(-> & _ & Hdb)];
      unfold uuid_inv; simpl; rewrite Hdb.
    + split; [done|]. intros i Hi. apply Hlt in Hi. lia.
    + simpl. rewrite fmap_app. simpl. rewrite (Hsucc eq_refl). split.
      * apply NoDup_app. split; [done|]. split; [|apply NoDup_singleton].
        intros i Hi Hs. apply list_elem_of_singleton in Hs. apply Hlt in Hi. lia.
      * intros i [Hi|Hs]%elem_of_app.
        -- apply Hlt in Hi. lia.
        -- apply list_elem_of_singleton in Hs. lia.
  - unfold submit. by case_match.
  - by destruct (running w).
  - destruct (running w); [by apply flush_uuid_inv|done].
  - destruct (running w); [|done]. destruct (opChan w); [done|].
    case_match; [by apply flush_uuid_inv|done].
Qed.

(** X9: no two rows of [point_txs] share an identifier along any run,
    also across failed and repeated flushes: every row takes a new value
    from the identifier source, which is taken here never to repeat. *)
Theorem ledger_ids_are_unique evs :
  NoDup (txID <$> point_txs (db (run init evs))).
Proof.
  assert (∀ w, uuid_inv w → uuid_inv (run w evs)) as H.
  { induction evs as [|e evs IH]; intros w Hi; simpl; [done|].
    by apply IH, step_uuid_inv. }
  apply (H init). split; simpl.
  - constructor.
  - intros i Hi. by apply elem_of_nil in Hi.
Qed.

(** ** A batch whose operations are all rejected *)

Lemma restoreState_run f keys w :
  fails f CallRead = false →
  restoreState f keys w = (w, inr (selectBalances (user_points (db w)) keys)).
Proof.
  intros Hf. unfold restoreState. case_match eqn:Hk.
  - by apply length_zero_nil in Hk as ->.
  - tx_unfold. by rewrite Hf.
Qed.

Lemma batchInsertTxLogs_empty f w :
  txLogs w = [] → batchInsertTxLogs f w = (w, inr tt).
Proof. intros H. tx_unfold. simpl. by rewrite H. Qed.

Lemma saveDirtyState_empty f st w : saveDirtyState f st ∅ w = (w, inr tt).
Proof. unfold saveDirtyState. by rewrite size_empty. Qed.

Lemma accepted_none ps : ∀ cbs,
  Forall (λ cb, is_ok cb = false) cbs → accepted ps cbs = [].
Proof.
  induction ps as [|p ps IH]; intros [|cb cbs] H; try done.
  inversion H as [|? ? Hcb Hrest]; subst.
  rewrite accepted_cons, Hcb. by apply IH.
Qed.

Lemma flush_tx_all_rejected f w :
  fails f CallRead = false → fails f CallCommit = false →
  Forall (λ cb, is_ok cb = false) (b_callbacks (batch_of w)) →
  flush_tx f w = (after_loop w, inr tt).
Proof.
  intros Hread Hcommit Hrej.
  destruct (batch_of_trace w) as (logs & Hl & _ & Hrows & _ & _ & Hd).
  rewrite (accepted_none _ _ Hrej) in Hrows.
  assert (logs = []) as -> by (by destruct logs).
  unfold flush_tx, RunInTx, flush_body, mbind, Tx_bind.
  rewrite (restoreState_run f _ w Hread). unfold get, modify.
  fold (initial_batch w). fold (batch_of w).
  rewrite batchInsertTxLogs_empty by done.
  rewrite Hd. simpl. rewrite saveDirtyState_empty, Hcommit. done.
Qed.

(** X10: when every operation of the buffer is rejected, the flush issues
    neither the bulk insert nor the bulk upsert, so a store in which only
    those statements fail cannot fail it: the transaction commits, the
    tables are as before, every callback is sent and the buffer is
    cleared. *)
Theorem rejected_batch_needs_no_write f w :
  buff w ≠ [] →
  fails f CallRead = false → fails f CallCommit = false →
  Forall (λ cb, is_ok cb = false) (b_callbacks (batch_of w)) →
  db (flush f w) = db w ∧ buff (flush f w) = [] ∧
  sent (flush f w) = sent w ++ zip (done <$> buff w) (b_callbacks (batch_of w)).
Proof.
  intros Hne Hread Hcommit Hrej.
  pose proof (flush_tx_all_rejected f w Hread Hcommit Hrej) as Htx.
  destruct (flush_cases f w) as [[E _]|[(w2 & e' & _ & Htx' & _)|(w2 & _ & Htx' & ->)]].
  - done.
  - congruence.
  - assert (w2 = after_loop w) as -> by congruence. done.
Qed.

Lemma rejected_batch_needs_no_write_witness :
  sent (flush (Some CallInsertTx)
          (run init [EvSubmit "u" (-1); EvSubmit "v" (-2); EvRecv None; EvRecv None])) =
    [(0%nat, Callback (Some ErrInsufficientBalance));
     (1%nat, Callback (Some ErrInsufficientBalance))].
Proof.
  destruct (rejected_batch_needs_no_write (Some CallInsertTx)
              (run init [EvSubmit "u" (-1); EvSubmit "v" (-2); EvRecv None; EvRecv None]))
    as (_ & _ & ->).
  - vm_compute. discriminate.
  - reflexivity.
  - reflexivity.
  - vm_compute. repeat constructor.
  - vm_compute. reflexivity.
Defined.

(** ** A failed flush and its repetition *)

Lemma apply_op_same_rows b b' p :
  same_rows b b' → same_rows (apply_op b p) (apply_op b' p).
Proof.
  intros (Hs & Hd & Hc & Hl).
  assert (new_balance b p = new_balance b' p) as Hn
    by (unfold new_balance; by rewrite Hs).
  unfold apply_op. rewrite Hn. case_match; unfold same_rows; simpl.
  - by rewrite Hs, Hd, Hc, Hl.
  - by rewrite Hs, Hd, Hc, !fmap_app, Hl.
Qed.

Lemma apply_ops_same_rows ps : ∀ b b',
  same_rows b b' → same_rows (apply_ops b ps) (apply_ops b' ps).
Proof.
  induction ps as [|p ps IH]; intros b b' H; simpl; [done|].
  by apply IH, apply_op_same_rows.
Qed.

(** The tables, the callbacks sent and the buffer after a flush with a
    store that does not fail. *)
Lemma flush_healthy_result w :
  buff w ≠ [] →
  user_points (db (flush None w)) =
    upsertAll (state (batch_of w)) (elements (dirty (batch_of w)))
              (user_points (db w)) ∧
  point_txs (db (flush None w)) = point_txs (db w) ++ b_txLogs (batch_of w) ∧
  sent (flush None w) = sent w ++ zip (done <$> buff w) (b_callbacks (batch_of w)).
Proof.
  intros Hne. destruct (flush_tx_healthy w) as [w1 Htx].
  pose proof (flush_tx_commit _ _ _ _ Htx) as (Hdb & Hc & _).
  destruct (flush_cases None w) as [[E _]|[(w2 & e' & _ & Htx' & _)|(w2 & _ & Htx' & ->)]].
  - done.
  - congruence.
  - assert (w2 = w1) as -> by congruence. simpl. by rewrite Hdb, Hc.
Qed.

(** X11: a flush that failed before it had written anything, at the read
    or at the bulk insert, changes nothing of what its repetition does:
    with a store that then does not fail, flushing after the failed flush
    leaves the same balances, the same rows up to their identifiers, and
    the same callbacks on the same handles as flushing at once. *)
Theorem retry_after_failed_flush f w w1 e :
  early f →
  flush_tx f w = (w1, inl e) →
  buff w ≠ [] →
  user_points (db (flush None (flush f w))) = user_points (db (flush None w)) ∧
  tx_row <$> point_txs (db (flush None (flush f w))) =
    tx_row <$> point_txs (db (flush None w)) ∧
  sent (flush None (flush f w)) = sent (flush None w) ∧
  buff (flush None (flush f w)) = [].
Proof.
  intros Hf Htx Hne.
  assert (flush f w = w1) as ->.
  { destruct (flush_cases f w) as [[E _]|[(w2 & e' & _ & Htx' & ->)|(w2 & _ & Htx' & _)]];
      [done|congruence|congruence]. }
  pose proof (early_failure_wrote_nothing _ _ _ _ Hf Htx) as Hdb.
  apply flush_tx_frame in Htx as (_ & Hb & Hs & _).
  assert (buff w1 ≠ []) as Hne1 by (by rewrite Hb).
  assert (same_rows (batch_of w1) (batch_of w)) as (Hst & Hd & Hc & Hl).
  { unfold batch_of. rewrite Hb. apply apply_ops_same_rows.
    unfold same_rows, initial_batch. simpl. by rewrite Hdb, Hb. }
  destruct (flush_healthy_result w1 Hne1) as (Hp1 & Ht1 & Hs1).
  destruct (flush_healthy_result w Hne) as (Hp & Ht & Hs0).
  rewrite Hp1, Hp, Ht1, Ht, Hs1, Hs0, !fmap_app, Hst, Hd, Hc, Hl, Hdb, Hb, Hs.
  split; [done|]. split; [done|]. split; [done|]. apply flush_healthy_buff.
Qed.

Lemma retry_after_failed_flush_witness :
  early (Some CallInsertTx) ∧
  (flush_tx (Some CallInsertTx) two_debits).2 = inl (ErrStore CallInsertTx) ∧
  sent (flush None (flush (Some CallInsertTx) two_debits)) =
    sent (flush None two_debits).
Proof.
  split; [split; reflexivity|]. split; [vm_compute; reflexivity|].
  destruct (retry_after_failed_flush (Some CallInsertTx) two_debits
              (flush_tx (Some CallInsertTx) two_debits).1 (ErrStore CallInsertTx))
    as (_ & _ & H & _).
  - split; reflexivity.
  - vm_compute. reflexivity.
  - vm_compute. discriminate.
  - exact H.
Defined.

(** ** Progress with a store that does not fail *)

Lemma drain_receives n : ∀ w,
  running w = true → length (opChan w) = n →
  opChan (run w (replicate n (EvRecv None))) = [] ∧
  running (run w (replicate n (EvRecv None))) = true.
Proof.
  induction n as [|n IH]; intros w Hr Hn.
  { simpl. split; [|done]. by destruct (opChan w). }
  destruct (opChan w) as [|p rest] eqn:Hq; [done|].
  simpl. rewrite Hr, Hq. simpl in Hn.
  apply IH.
  - case_match; [|done].
    by destruct (flush_frame None (set_buff (buff w ++ [p]) (set_opChan rest w)))
      as (_ & _ & ->).
  - case_match; [|simpl; lia].
    destruct (flush_frame None (set_buff (buff w ++ [p]) (set_opChan rest w)))
      as (-> & _). simpl. lia.
Qed.

Lemma drain_empties w :
  running w = true → pending (run w (drain w)) = [].
Proof.
  intros Hr. unfold drain, run. rewrite foldl_app. simpl.
  fold (run w (replicate (length (opChan w)) (EvRecv None))).
  destruct (drain_receives (length (opChan w)) w Hr eq_refl) as [Hq Hr'].
  rewrite Hr'. unfold pending.
  destruct (flush_frame None (run w (replicate (length (opChan w)) (EvRecv None))))
    as (-> & _).
  by rewrite Hq, flush_healthy_buff.
Qed.

Lemma step_next_chan w e : (next_chan w ≤ next_chan (step w e))%nat.
Proof.
  destruct e as [f u a|u a| |f|f]; unfold step.
  - destruct (addPoint f u a w) as [w' r] eqn:Ha.
    apply addPoint_frame in Ha as (_ & _ & _ & _ & Hn). simpl. lia.
  - unfold submit. case_match; simpl; lia.
  - by destruct (running w).
  - destruct (running w); [|done]. destruct (flush_frame f w) as (_ & -> & _). done.
  - destruct (running w); [|done]. destruct (opChan w) as [|p rest]; [done|].
    case_match; [|done].
    by destruct (flush_frame f (set_buff (buff w ++ [p]) (set_opChan rest w)))
      as (_ & -> & _).
Qed.

Lemma run_next_chan evs : ∀ w, (next_chan w ≤ next_chan (run w evs))%nat.
Proof.
  induction evs as [|e evs IH]; intros w; simpl; [done|].
  pose proof (step_next_chan w e). pose proof (IH (step w e)). lia.
Qed.

(** X12: while the worker runs and the store does not fail, nothing stays
    unanswered: once the worker has received what is queued and its timer
    has fired, every operation submitted so far has exactly one callback
    on its handle. *)
Theorem healthy_worker_answers_everything evs h :
  running (run init evs) = true →
  (h < next_chan (run init evs))%nat →
  sends_on h (run (run init evs) (drain (run init evs))) = 1%nat.
Proof.
  intros Hr Hh.
  set (w := run init evs) in *.
  pose proof (run_handles (drain w) w (run_handles evs init init_handles)) as Hi.
  apply (occurrences_perm h) in Hi.
  rewrite occurrences_app, occurrences_seq, <- sends_on_answered in Hi.
  rewrite (drain_empties w Hr) in Hi.
  pose proof (run_next_chan (drain w) w) as Hn.
  rewrite decide_True in Hi by lia. unfold occurrences in Hi. simpl in Hi. lia.
Qed.

Lemma healthy_worker_answers_everything_witness :
  sends_on 1 (run (run init [EvSubmit "u" 5; EvSubmit "u" (-9)])
                  (drain (run init [EvSubmit "u" 5; EvSubmit "u" (-9)]))) = 1%nat.
Proof.
  apply (healthy_worker_answers_everything [EvSubmit "u" 5; EvSubmit "u" (-9)] 1).
  - reflexivity.
  - vm_compute. lia.
Defined.

(** ** The rate that the benchmark prints *)

(** X16: [printBenchResult] divides the operations and errors together
    by the whole seconds elapsed. Under one second the division panics;
    from one second on, the printed rate is never below the true average
    rate of completed calls per second (rounded down), since the fraction
    of the last second is dropped from the time. *)
Theorem printed_rate_rounds_time_down opCnt errCnt diff :
  0 <= opCnt → 0 <= errCnt → opCnt + errCnt < 2 ^ 64 →
  0 <= diff <= Int64.max_int →
  ((printBenchResult opCnt errCnt diff).2 = None ↔ diff < 1000000000) ∧
  (1000000000 <= diff →
     (printBenchResult opCnt errCnt diff).2 =
       Some ((opCnt + errCnt) / (diff / 1000000000)) ∧
     (opCnt + errCnt) * 1000000000 / diff <= (opCnt + errCnt) / (diff / 1000000000)).
Proof.
  intros Hc He Hsum Hd. unfold printBenchResult, Int64.max_int in *. simpl.
  rewrite Z.quot_div_nonneg by lia.
  pose proof (Z.div_pos diff 1000000000 ltac:(lia) ltac:(lia)) as Hs0.
  assert (diff / 1000000000 < 2 ^ 64) as Hs1.
  { apply Z.div_lt_upper_bound; lia. }
  rewrite (Z.mod_small (diff / 1000000000)) by lia.
  rewrite (Z.mod_small (opCnt + errCnt)) by lia.
  split.
  - destruct (Z.eqb_spec (diff / 1000000000) 0) as [E|E].
    + split; [intros _|done]. apply Z.div_small_iff in E; lia.
    + split; [done|intros Hlt]. rewrite Z.div_small in E by lia. done.
  - intros Hge.
    assert (1 <= diff / 1000000000) as Hs.
    { apply Z.div_le_lower_bound; lia. }
    destruct (Z.eqb_spec (diff / 1000000000) 0) as [E|E]; [lia|].
    split; [done|].
    rewrite <- (Z.div_mul_cancel_r (opCnt + errCnt) (diff / 1000000000) 1000000000)
      by lia.
    apply Z.div_le_compat_l; [lia|].
    split; [lia|]. rewrite Z.mul_comm. apply Z.mul_div_le. lia.
Qed.

Lemma printed_rate_rounds_time_down_witness :
  (printBenchResult 1281 0 5907049250).2 = Some 256 ∧
  1281 * 1000000000 / 5907049250 <= 256.
Proof.
  destruct (printed_rate_rounds_time_down 1281 0 5907049250) as [_ H];
    [lia|lia|vm_compute; reflexivity|unfold Int64.max_int; lia|].
  destruct H as [H1 H2]; [lia|].
  split; [rewrite H1; vm_compute; reflexivity|].
  etransitivity; [exact H2|]. vm_compute. discriminate.
Defined.

(** ** A workload of credits *)

Lemma queued_app ps qs : queued (ps ++ qs) = queued ps + queued qs.
Proof. induction ps as [|p ps IH]; simpl; lia. Qed.

Lemma total_app l k : total (l ++ k) = total l + total k.
Proof. induction l as [|t l IH]; simpl; lia. Qed.

Lemma queued_nonneg ps : Forall (λ p, 0 <= amount p) ps → 0 <= queued ps.
Proof. induction 1; simpl; lia. Qed.

Lemma total_rows l : ∀ ps, tx_row <$> l = op_row <$> ps → total l = queued ps.
Proof.
  induction l as [|t l IH]; intros [|p ps] Hr; try done.
  rewrite !fmap_cons in Hr. unfold tx_row at 1, op_row at 1 in Hr.
  injection Hr as Hu Ha Hr. simpl. by rewrite Ha, (IH ps Hr).
Qed.

Lemma rows_nonneg l : ∀ ps,
  tx_row <$> l = op_row <$> ps →
  Forall (λ p, 0 <= amount p) ps → Forall (λ t, 0 <= tx_amount t) l.
Proof.
  induction l as [|t l IH]; intros [|p ps] Hr Hp; try done.
  rewrite !fmap_cons in Hr. unfold tx_row at 1, op_row at 1 in Hr.
  injection Hr as Hu Ha Hr. inversion Hp; subst.
  constructor; [lia|]. by apply (IH ps).
Qed.

Lemma ledger_sum_le_total u l :
  Forall (λ t, 0 <= tx_amount t) l → ledger_sum u l <= total l.
Proof. induction 1; simpl; [lia|]. case_decide; lia. Qed.

(** From in-memory balances of at most [T], credits that fit above [T]
    are all accepted. *)
Lemma apply_ops_credits ps : ∀ b T,
  balances_valid (state b) →
  (∀ u, default 0 (state b !! u) <= T) →
  Forall (λ p, 0 <= amount p) ps →
  T + queued ps <= Int64.max_int →
  b_callbacks (apply_ops b ps) =
    b_callbacks b ++ replicate (length ps) (Callback None) ∧
  tx_row <$> b_txLogs (apply_ops b ps) = (tx_row <$> b_txLogs b) ++ (op_row <$> ps).
Proof.
  induction ps as [|p ps IH]; intros b T Hv HT Hp Hmax.
  { simpl. by rewrite !app_nil_r. }
  inversion Hp as [|? ? Ha Hps]; subst. simpl in Hmax.
  pose proof (queued_nonneg ps Hps) as Hq.
  pose proof (state_default_valid b (userID p) Hv) as Hb.
  pose proof (HT (userID p)) as HTu.
  assert (new_balance b p = default 0 (state b !! userID p) + amount p) as Hnew.
  { unfold new_balance, Int64.add. apply wrap_id.
    unfold Int64.in_range, Int64.min_int, Int64.max_int in *. lia. }
  assert (0 <= new_balance b p) as Hpos by lia.
  simpl. fold (apply_ops (apply_op b p) ps).
  destruct (IH (apply_op b p) (T + amount p)) as [Hc Hl].
  - by apply apply_op_valid.
  - intros u. rewrite (apply_op_accept b p Hpos). simpl.
    rewrite lookup_insert. case_decide; simpl; [lia|].
    pose proof (HT u). lia.
  - done.
  - lia.
  - rewrite Hc, Hl, (apply_op_accept b p Hpos). simpl.
    rewrite <- !app_assoc, fmap_app. simpl. by rewrite <- app_assoc.
Qed.

Lemma flush_credit_inv f B w :
  early f → B <= Int64.max_int → credit_inv B w → credit_inv B (flush f w).
Proof.
  intros Hf HB (Ht & Hp & Hrows & Hsum & Hsent).
  split; [by apply flush_tables|].
  apply Forall_app in Hp as [Hpq Hpb].
  destruct (flush_cases f w) as [[_ ->]|[(w1 & e & _ & Htx & ->)|(w1 & _ & Htx & ->)]].
  - split; [by apply Forall_app|done].
  - rewrite (early_failure_wrote_nothing _ _ _ _ Hf Htx).
    apply flush_tx_frame in Htx as (-> & -> & -> & _).
    split; [by apply Forall_app|done].
  - destruct Ht as (Hv & Hc & _).
    destruct (apply_ops_credits (buff w) (initial_batch w)
                (total (point_txs (db w)))) as [Hcb Hl].
    + simpl. intros k v. rewrite selectBalances_lookup. case_decide; [apply Hv|done].
    + intros u. simpl. rewrite selectBalances_lookup.
      pose proof (ledger_sum_le_total u _ Hrows) as Hle.
      rewrite (Hc u) in Hle. unfold balance_of in Hle.
      case_decide; [done|]. simpl.
      pose proof (Hv u). destruct (user_points (db w) !! u) eqn:E; simpl in *.
      * pose proof (Hv u z E). lia.
      * lia.
    + done.
    + rewrite queued_app in Hsum. pose proof (queued_nonneg _ Hpq). lia.
    + fold (batch_of w) in Hcb, Hl. simpl in Hcb, Hl.
      pose proof (flush_tx_commit _ _ _ _ Htx) as (Hdb & Hcs & _).
      apply flush_tx_frame in Htx as (Hq & _).
      simpl. rewrite Hdb, Hq, Hcs, Hcb. simpl. rewrite app_nil_r.
      split; [done|]. split; [|split].
      * apply Forall_app. split; [done|]. by apply (rows_nonneg _ (buff w)).
      * rewrite total_app, (total_rows _ (buff w) Hl).
        rewrite queued_app in Hsum. lia.
      * apply Forall_app. split; [done|].
        apply Forall_forall. intros [h cb] Hin. simpl.
        apply elem_of_zip_r in Hin. by apply elem_of_replicate_inv in Hin.
Qed.

Lemma step_credit_inv B w e :
  event_early e →
  0 <= offered e → B + offered e <= Int64.max_int →
  credit_inv B w → credit_inv (B + offered e) (step w e).
Proof.
  intros Hf Ho HB Hi. pose proof Hi as (Ht & Hp & Hrows & Hsum & Hsent).
  assert (0 <= B) as HB0.
  { pose proof (queued_nonneg _ Hp).
    assert (0 <= total (point_txs (db w))); [|lia].
    clear -Hrows. induction Hrows; simpl; lia. }
  assert (event_ok e) as Hok.
  { destruct e; simpl in *; try done;
      unfold Int64.in_range, Int64.min_int, Int64.max_int in *; lia. }
  destruct e as [f u a|u a| |f|f]; simpl in Ho, HB, Hf.
  - split; [by apply step_tables|]. unfold step.
    destruct (addPoint f u a w) as [w' r] eqn:Ha.
    pose proof (addPoint_frame _ _ _ _ _ _ Ha) as (Hq & Hb & Hs & _).
    simpl. rewrite Hq, Hb, Hs.
    apply addPoint_cases in Ha as [(e & _ & ->)|(_ & _ & ->)]; simpl.
    + repeat split; try done. lia.
    + repeat split; try done.
      * apply Forall_app. split; [done|]. by constructor.
      * rewrite total_app. simpl. lia.
  - split; [by apply step_tables|]. unfold step, submit.
    case_match; simpl; [repeat split; try done; lia|].
    repeat split; try done.
    + apply Forall_app in Hp as [Hpq Hpb].
      apply Forall_app. split; [|done]. apply Forall_app. split; [done|].
      by constructor.
    + rewrite !queued_app in *. simpl. lia.
  - rewrite Z.add_0_r. unfold step. by destruct (running w).
  - rewrite Z.add_0_r in *. unfold step.
    destruct (running w); [by apply flush_credit_inv|done].
  - rewrite Z.add_0_r in *. unfold step.
    destruct (running w); [|done]. destruct (opChan w) as [|p rest] eqn:Hq; [done|].
    assert (credit_inv B (set_buff (buff w ++ [p]) (set_opChan rest w))) as Hi'.
    { destruct Ht as (Hv & Hc & Ha). unfold amounts_ok in Ha. rewrite Hq in Ha.
      inversion Ha as [|? ? Hpa Hra]; subst. apply Forall_app in Hra as [Hra Hba].
      inversion Hp as [|? ? Hp0 Hpr]; subst. apply Forall_app in Hpr as [Hpr Hpb].
      split.
      { split; [done|]. split; [done|]. unfold amounts_ok. simpl.
        apply Forall_app. split; [done|]. apply Forall_app. split; [done|].
        by constructor. }
      simpl. repeat split; try done.
      - apply Forall_app. split; [done|]. apply Forall_app. split; [done|].
        by constructor.
      - rewrite !queued_app in *. simpl in *. lia. }
    case_match; [by apply flush_credit_inv|done].
Qed.

(** X18: a workload of credits is never refused by the worker: along any
    run whose amounts are all non-negative and together fit an [int64], as
    the amounts of the load workers do, and in which no flush fails after
    it has written, every callback ever sent is [nil]. *)
Theorem credits_are_never_rejected evs h cb :
  Forall event_early evs →
  Forall (λ e, 0 <= offered e) evs →
  offered_sum evs <= Int64.max_int →
  (h, cb) ∈ sent (run init evs) →
  cb = Callback None.
Proof.
  intros Hearly Hev Hsum Hin.
  assert (∀ B w, 0 <= B → credit_inv B w → B + offered_sum evs <= Int64.max_int →
                 credit_inv (B + offered_sum evs) (run w evs)) as H.
  { clear Hsum Hin. revert Hearly.
    induction Hev as [|e evs He Hev IH]; intros Hearly B w HB Hi Hmax; simpl.
    { by rewrite Z.add_0_r. }
    simpl in Hmax. inversion Hearly; subst.
    assert (0 <= offered_sum evs) as Hrest.
    { clear -Hev. induction Hev; simpl; lia. }
    rewrite Z.add_assoc. apply IH; [done|lia| |lia].
    apply step_credit_inv; [done|done|lia|done]. }
  destruct (H 0 init) as (_ & _ & _ & _ & Hsent).
  - done.
  - split; [apply init_tables|]. simpl. repeat split; done.
  - lia.
  - rewrite Forall_forall in Hsent. by apply (Hsent (h, cb)).
Qed.

Lemma credits_are_never_rejected_witness :
  (1%nat, Callback None) ∈
    sent (run init [EvSubmit "u" 99; EvSubmit "u" 0; EvRecv None; EvRecv None;
                    EvTimer None]) ∧
  Callback None = Callback None.
Proof.
  assert ((1%nat, Callback None) ∈
    sent (run init [EvSubmit "u" 99; EvSubmit "u" 0; EvRecv None; EvRecv None;
                    EvTimer None])) as Hin.
  { vm_compute. right. left. }
  split; [exact Hin|].
  apply (credits_are_never_rejected
           [EvSubmit "u" 99; EvSubmit "u" 0; EvRecv None; EvRecv None; EvTimer None]
           1 (Callback None)); [| |vm_compute; discriminate|exact Hin].
  - repeat constructor.
  - repeat constructor; simpl; lia.
Defined.

End StatefulFacts.

(** * Properties of the singleflight package *)

Module SingleflightFacts.
Import Singleflight.

(** ** The snapshot cache *)

Lemma ensureFeatureActiveWithCache_same_cache feature w w' :
  featureActiveCache w' = featureActiveCache w →
  (ensureFeatureActiveWithCache feature w').2 =
  (ensureFeatureActiveWithCache feature w).2.
Proof.
  intros Hc. unfold ensureFeatureActiveWithCache. rewrite Hc. by case_match.
Qed.

(** C8: when a refresh fails (the query, the scan of a row, or the rows'
    final error), [updateFeatureActiveCache] returns the error and leaves
    the snapshot map as it was; the periodic refresh then only logs the
    error, and every read of the cache answers as before. *)
Theorem failed_refresh_keeps_snapshot q w w' e :
  updateFeatureActiveCache q w = (w', Some e) →
  featureActiveCache w' = featureActiveCache w ∧
  featureActiveCache (refresh_step w (Tick q)) = featureActiveCache w ∧
  logged (refresh_step w (Tick q)) =
    (if refreshing w then logged w ++ [e] else logged w) ∧
  ∀ feature,
    (ensureFeatureActiveWithCache feature (refresh_step w (Tick q))).2 =
    (ensureFeatureActiveWithCache feature w).2.
Proof.
  intros Hu.
  assert (featureActiveCache w' = featureActiveCache w ∧ logged w' = logged w)
    as [Hc Hl].
  { revert Hu. unfold updateFeatureActiveCache.
    destruct (Iter q scan_feature ∅) as [m [e'|]]; by intros [= <- <-]. }
  split; [done|].
  assert (featureActiveCache (refresh_step w (Tick q)) = featureActiveCache w) as Hs.
  { unfold refresh_step, refresh_tick. rewrite Hu. by destruct (refreshing w). }
  split; [done|]. split.
  - unfold refresh_step, refresh_tick. rewrite Hu.
    destruct (refreshing w); simpl; [by rewrite Hl|done].
  - intros feature. by apply ensureFeatureActiveWithCache_same_cache.
Qed.

Lemma failed_refresh_keeps_snapshot_witness :
  (updateFeatureActiveCache broken_scan snapshot).2 = Some (StoreError "scan") ∧
  featureActiveCache (refresh_step snapshot (Tick broken_scan)) =
    featureActiveCache snapshot ∧
  (ensureFeatureActiveWithCache "f" (refresh_step snapshot (Tick broken_scan))).2 = None.
Proof.
  split; [vm_compute; reflexivity|].
  destruct (failed_refresh_keeps_snapshot broken_scan snapshot
              (updateFeatureActiveCache broken_scan snapshot).1
              (StoreError "scan")) as (_ & Hc & _ & Hr).
  { vm_compute. reflexivity. }
  split; [exact Hc|]. rewrite (Hr "f"%string). vm_compute. reflexivity.
Defined.

(** Along the goroutine's events the snapshot changes only at a tick whose
    update succeeds. *)
Lemma refresh_step_cache w ev :
  featureActiveCache (refresh_step w ev) = featureActiveCache w ∨
  ∃ q w', ev = Tick q ∧ updateFeatureActiveCache q w = (w', None) ∧
          featureActiveCache (refresh_step w ev) = featureActiveCache w'.
Proof.
  unfold refresh_step. destruct (refreshing w); [|by left].
  destruct ev as [q|]; [|by left]. unfold refresh_tick.
  destruct (updateFeatureActiveCache q w) as [w' [e|]] eqn:Hu.
  - left. simpl. revert Hu. unfold updateFeatureActiveCache.
    destruct (Iter q scan_feature ∅) as [m [e'|]]; by intros [= <- <-].
  - right. by exists q, w'.
Qed.

(** The swap installs the map built from all the rows, and only when no
    row failed. *)
Lemma refresh_installs_all_rows q w w' :
  updateFeatureActiveCache q w = (w', None) →
  ∃ rows, q = Rows rows None ∧
    (iter_rows rows scan_feature ∅).2 = None ∧
    featureActiveCache w' = (iter_rows rows scan_feature ∅).1.
Proof.
  unfold updateFeatureActiveCache, Iter. destruct q as [msg|rows rows_err]; [done|].
  destruct (iter_rows rows scan_feature ∅) as [m [e|]] eqn:Hi; [done|].
  destruct rows_err as [msg|]; simpl; [done|]. intros [= <-].
  exists rows. by rewrite Hi.
Qed.

(** C10: the reader of the snapshot returns [featureInactive] exactly when
    the key is absent from the map or maps to [false]; it sends no query to
    the store and changes nothing; its only error is [featureInactive]; and
    the handler of [/f3] never answers 500. *)
Theorem cache_reader_only_inactive feature w :
  ((ensureFeatureActiveWithCache feature w).2 = Some featureInactive ↔
     featureActiveCache w !! feature = None ∨
     featureActiveCache w !! feature = Some false) ∧
  (ensureFeatureActiveWithCache feature w).1 = w ∧
  (∀ msg, (ensureFeatureActiveWithCache feature w).2 ≠ Some (StoreError msg)) ∧
  (handle_f3 w).1 = w ∧
  (∀ text, (handle_f3 w).2 ≠ InternalServerError text).
Proof.
  unfold handle_f3, ensureFeatureActiveWithCache.
  split; [|split; [|split; [|split]]].
  - destruct (featureActiveCache w !! feature) as [[]|]; simpl; naive_solver.
  - by destruct (negb _).
  - intros msg. by destruct (negb _).
  - by destruct (negb _).
  - intros text. by destruct (negb _).
Qed.

(** The handler of [/f1] can answer 500: the direct reader passes the
    store's error on. *)
Lemma f1_can_answer_500 w :
  (handle_f1 (RowError "connection refused") w).2 =
  InternalServerError "connection refused".
Proof. done. Qed.

(** ** The coalescing reader *)

Lemma flight_init_inv w features : flight_inv (flight_init w features).
Proof.
  unfold flight_inv, flight_init. simpl.
  split; [|split]; intros c *; rewrite !list_lookup_fmap;
    destruct (features !! c); simpl; try done.
Qed.

(** At most one caller leads a key. *)
Lemma one_leader_per_key fl c c' key h h' :
  flight_inv fl →
  callers fl !! c = Some (Leading key h) →
  callers fl !! c' = Some (Leading key h') →
  c = c'.
Proof.
  intros (HL & HU & _) Hc Hc'.
  destruct (HL _ _ _ Hc) as [Hk _]. destruct (HL _ _ _ Hc') as [Hk' _].
  assert (h' = h) as -> by congruence. by eapply HU.
Qed.

Lemma enter_inv fl c : flight_inv fl → flight_inv (flight_step fl (Enter c)).
Proof.
  intros (HL & HU & HR). simpl.
  destruct (callers fl !! c) as [[key|key h|h|h res err]|] eqn:Hc;
    try (by split; [|split]).
  destruct (inflight fl !! key) as [h|] eqn:Hk.
  - split; [|split]; simpl.
    + intros c1 key1 h1 [(_ & ? & _)|[_ H1]]%list_lookup_insert_Some; [done|]. eauto.
    + intros c1 c2 key1 key2 h1 [(_ & ? & _)|[_ H1]]%list_lookup_insert_Some
        [(_ & ? & _)|[_ H2]]%list_lookup_insert_Some; try done. eauto.
    + intros c1 h1 res err [(_ & ? & _)|[_ H1]]%list_lookup_insert_Some; [done|]. eauto.
  - split; [|split]; simpl.
    + intros c1 key1 h1 [(_ & [= <- <-] & _)|[Hne H1]]%list_lookup_insert_Some.
      * rewrite lookup_insert_eq. split; [done|]. by apply list_lookup_middle.
      * destruct (HL _ _ _ H1) as [Hk1 Hh1].
        rewrite lookup_insert_ne by congruence.
        split; [done|]. by apply lookup_app_l_Some.
    + intros c1 c2 key1 key2 h1 H1 H2.
      apply list_lookup_insert_Some in H1, H2.
      destruct H1 as [(<- & E1 & _)|[Hne1 H1]], H2 as [(<- & E2 & _)|[Hne2 H2]];
        simplify_eq; try done.
      * destruct (HL _ _ _ H2) as [_ Hh]. apply lookup_lt_Some in Hh. lia.
      * destruct (HL _ _ _ H1) as [_ Hh]. apply lookup_lt_Some in Hh. lia.
      * eauto.
    + intros c1 h1 res err [(_ & ? & _)|[_ H1]]%list_lookup_insert_Some; [done|].
      destruct (HR _ _ _ _ H1) as [Hh ->]. split; [|done]. by apply lookup_app_l_Some.
Qed.

Lemma finish_inv fl c r : flight_inv fl → flight_inv (flight_step fl (Finish c r)).
Proof.
  intros Hinv. pose proof Hinv as (HL & HU & HR). simpl.
  destruct (callers fl !! c) as [[key|key h|h|h res err]|] eqn:Hc; try done.
  destruct (isFeatureActive r (proc fl)) as [w' res].
  destruct (HL _ _ _ Hc) as [Hk Hh].
  split; [|split]; simpl.
  - intros c1 key1 h1 [(_ & ? & _)|[Hne H1]]%list_lookup_insert_Some; [done|].
    destruct (HL _ _ _ H1) as [Hk1 Hh1].
    assert (key ≠ key1).
    { intros <-. apply Hne. by eapply one_leader_per_key. }
    assert (h ≠ h1).
    { intros <-. apply Hne. by eapply HU. }
    rewrite lookup_delete_ne by done. by rewrite list_lookup_insert_ne.
  - intros c1 c2 key1 key2 h1 [(_ & ? & _)|[_ H1]]%list_lookup_insert_Some
      [(_ & ? & _)|[_ H2]]%list_lookup_insert_Some; try done. eauto.
  - intros c1 h1 res1 err1 [(_ & [= <- <- <-] & _)|[Hne H1]]%list_lookup_insert_Some.
    + split; [|done]. apply list_lookup_insert_eq. by apply lookup_lt_Some in Hh.
    + destruct (HR _ _ _ _ H1) as [Hh1 ->]. split; [|done].
      rewrite list_lookup_insert_ne; [done|]. intros <-. congruence.
Qed.

Lemma wake_inv fl c : flight_inv fl → flight_inv (flight_step fl (Wake c)).
Proof.
  intros (HL & HU & HR). simpl.
  destruct (callers fl !! c) as [[key|key h|h|h res err]|] eqn:Hc;
    try (by split; [|split]).
  destruct (handles fl !! h) as [[res|]|] eqn:Hh; try (by split; [|split]).
  split; [|split]; simpl.
  - intros c1 key1 h1 [(_ & ? & _)|[_ H1]]%list_lookup_insert_Some; [done|]. eauto.
  - intros c1 c2 key1 key2 h1 [(_ & ? & _)|[_ H1]]%list_lookup_insert_Some
      [(_ & ? & _)|[_ H2]]%list_lookup_insert_Some; try done. eauto.
  - intros c1 h1 res1 err1 [(_ & [= <- <- <-] & _)|[_ H1]]%list_lookup_insert_Some;
      [done|]. eauto.
Qed.

Lemma flight_step_inv fl e : flight_inv fl → flight_inv (flight_step fl e).
Proof.
  destruct e; [apply enter_inv|apply finish_inv|apply wake_inv].
Qed.

Lemma flight_run_inv evs fl : flight_inv fl → flight_inv (flight_run fl evs).
Proof.
  revert fl. induction evs as [|e evs IH]; intros fl Hi; simpl; [done|].
  by apply IH, flight_step_inv.
Qed.

(** *** Callers that arrive while the query is in flight *)

#[local] Arguments isFeatureActive : simpl never.

Lemma enter_waiters cs : ∀ fl key h,
  inflight fl !! key = Some h →
  NoDup cs →
  (∀ c, c ∈ cs → callers fl !! c = Some (Calling key)) →
  proc (flight_run fl (Enter <$> cs)) = proc fl ∧
  inflight (flight_run fl (Enter <$> cs)) = inflight fl ∧
  handles (flight_run fl (Enter <$> cs)) = handles fl ∧
  (∀ c, c ∈ cs → callers (flight_run fl (Enter <$> cs)) !! c = Some (Waiting h)) ∧
  (∀ c, c ∉ cs → callers (flight_run fl (Enter <$> cs)) !! c = callers fl !! c).
Proof.
  induction cs as [|c cs IH]; intros fl key h Hk Hnd Hcs.
  { simpl. repeat split; try done. intros c Hc. by apply elem_of_nil in Hc. }
  apply NoDup_cons in Hnd as [Hc Hnd].
  pose proof (Hcs c ltac:(set_solver)) as Hcc.
  rewrite fmap_cons. simpl. rewrite Hcc, Hk.
  set (fl1 := Flight (proc fl) (inflight fl) (handles fl)
                     (<[c := Waiting h]> (callers fl))).
  destruct (IH fl1 key h) as (Hp & Hi & Hh & Hin & Hout); [done|done| |].
  { intros c' Hc'. simpl. rewrite list_lookup_insert_ne by set_solver.
    apply Hcs. set_solver. }
  split; [done|]. split; [done|]. split; [done|]. split.
  - intros c' [->|Hc']%elem_of_cons; [|by apply Hin].
    rewrite Hout by done. simpl. apply list_lookup_insert_eq.
    by apply lookup_lt_Some in Hcc.
  - intros c' Hc'. rewrite Hout by set_solver. simpl.
    apply list_lookup_insert_ne. set_solver.
Qed.

Lemma wake_waiters cs : ∀ fl h res,
  handles fl !! h = Some (Some res) →
  NoDup cs →
  (∀ c, c ∈ cs → callers fl !! c = Some (Waiting h)) →
  proc (flight_run fl (Wake <$> cs)) = proc fl ∧
  (∀ c, c ∈ cs →
     callers (flight_run fl (Wake <$> cs)) !! c = Some (Returned h res (afterDo res))) ∧
  (∀ c, c ∉ cs → callers (flight_run fl (Wake <$> cs)) !! c = callers fl !! c).
Proof.
  induction cs as [|c cs IH]; intros fl h res Hh Hnd Hcs.
  { simpl. repeat split; try done. intros c Hc. by apply elem_of_nil in Hc. }
  apply NoDup_cons in Hnd as [Hc Hnd].
  pose proof (Hcs c ltac:(set_solver)) as Hcc.
  rewrite fmap_cons. simpl. rewrite Hcc, Hh.
  set (fl1 := Flight (proc fl) (inflight fl) (handles fl)
                     (<[c := Returned h res (afterDo res)]> (callers fl))).
  destruct (IH fl1 h res) as (Hp & Hin & Hout); [done|done| |].
  { intros c' Hc'. simpl. rewrite list_lookup_insert_ne by set_solver.
    apply Hcs. set_solver. }
  split; [done|]. split.
  - intros c' [->|Hc']%elem_of_cons; [|by apply Hin].
    rewrite Hout by done. simpl. apply list_lookup_insert_eq.
    by apply lookup_lt_Some in Hcc.
  - intros c' Hc'. rewrite Hout by set_solver. simpl.
    apply list_lookup_insert_ne. set_solver.
Qed.

(** While the caller [c0] leads the key with one query in flight, any
    number of callers [cs] enter for the same key; then the query is
    answered and the waiters wake. One query was sent to the store, and the
    leader and every waiter hold the value and the error of that query. *)
Lemma waiters_share_the_leaders_query fl c0 key h r cs :
  flight_inv fl →
  callers fl !! c0 = Some (Leading key h) →
  NoDup cs →
  (∀ c, c ∈ cs → callers fl !! c = Some (Calling key)) →
  let fl' := flight_run fl ((Enter <$> cs) ++ Finish c0 r :: (Wake <$> cs)) in
  let res := (isFeatureActive r (proc fl)).2 in
  queries (proc fl') = S (queries (proc fl)) ∧
  ∀ c, c ∈ c0 :: cs → callers fl' !! c = Some (Returned h res (afterDo res)).
Proof.
  intros Hinv Hc0 Hnd Hcs fl' res. subst fl' res.
  destruct Hinv as (HL & _ & _). destruct (HL _ _ _ Hc0) as [Hk Hh].
  assert (c0 ∉ cs) as Hc0cs.
  { intros Hin. apply Hcs in Hin. congruence. }
  destruct (enter_waiters cs fl key h Hk Hnd Hcs) as (Hp & Hi & Hhs & Hin & Hout).
  unfold flight_run. rewrite foldl_app. simpl.
  fold (flight_run fl (Enter <$> cs)).
  set (fl1 := flight_run fl (Enter <$> cs)) in *.
  rewrite (Hout c0 Hc0cs), Hc0, Hp. simpl.
  destruct (isFeatureActive r (proc fl)) as [w' res0] eqn:Hq. simpl.
  set (fl2 := Flight w' (delete key (inflight fl1)) (<[h := Some res0]> (handles fl1))
                     (<[c0 := Returned h res0 (afterDo res0)]> (callers fl1))).
  fold (flight_run fl2 (Wake <$> cs)).
  destruct (wake_waiters cs fl2 h res0) as (Hp2 & Hin2 & Hout2); [|done| |].
  { simpl. rewrite Hhs. apply list_lookup_insert_eq. by apply lookup_lt_Some in Hh. }
  { intros c Hc. simpl. rewrite list_lookup_insert_ne by set_solver. by apply Hin. }
  split.
  - rewrite Hp2. simpl. revert Hq. unfold isFeatureActive.
    destruct r; by intros [= <- _].
  - intros c [->|Hc]%elem_of_cons; [|by apply Hin2].
    rewrite Hout2 by done. simpl. apply list_lookup_insert_eq.
    rewrite <- (Hout c0 Hc0cs) in Hc0. by apply lookup_lt_Some in Hc0.
Qed.

Lemma three_callers_one_query :
  queries (proc three_callers) = 1%nat ∧
  callers three_callers =
    [Returned 0 (false, None) (Some featureInactive);
     Returned 0 (false, None) (Some featureInactive);
     Returned 0 (false, None) (Some featureInactive)].
Proof. vm_compute. done. Qed.

(** C9: in every interleaving of the callers' steps, at most one caller
    leads a key, that is at most one store query is in flight for it; a
    caller that arrives while the key is in flight starts no query and
    waits on the in-flight handle; all callers served by one handle hold the
    same value and the same error, the ones its leader published, and return
    the same error. For any number of callers that arrive while a leader's
    query is in flight, one query is sent to the store and the leader and
    all of them end with its result. *)
Theorem coalesced_callers_share_one_query w features evs :
  let fl := flight_run (flight_init w features) evs in
  (∀ c c' key h h',
     callers fl !! c = Some (Leading key h) →
     callers fl !! c' = Some (Leading key h') → c = c') ∧
  (∀ c key h,
     callers fl !! c = Some (Calling key) → inflight fl !! key = Some h →
     proc (flight_step fl (Enter c)) = proc fl ∧
     handles (flight_step fl (Enter c)) = handles fl ∧
     callers (flight_step fl (Enter c)) !! c = Some (Waiting h)) ∧
  (∀ c c' h res res' err err',
     callers fl !! c = Some (Returned h res err) →
     callers fl !! c' = Some (Returned h res' err') →
     res = res' ∧ err = err') ∧
  (∀ c0 key h r cs,
     callers fl !! c0 = Some (Leading key h) →
     NoDup cs →
     (∀ c, c ∈ cs → callers fl !! c = Some (Calling key)) →
     let fl' := flight_run fl ((Enter <$> cs) ++ Finish c0 r :: (Wake <$> cs)) in
     let res := (isFeatureActive r (proc fl)).2 in
     queries (proc fl') = S (queries (proc fl)) ∧
     ∀ c, c ∈ c0 :: cs → callers fl' !! c = Some (Returned h res (afterDo res))).
Proof.
  intros fl.
  pose proof (flight_run_inv evs _ (flight_init_inv w features)) as Hinv.
  fold fl in Hinv.
  split; [|split; [|split]].
  - intros c c' key h h'. by apply one_leader_per_key.
  - intros c key h Hc Hk. simpl. rewrite Hc, Hk. simpl.
    split; [done|]. split; [done|].
    apply list_lookup_insert_eq. by apply lookup_lt_Some in Hc.
  - intros c c' h res res' err err' Hc Hc'. destruct Hinv as (_ & _ & HR).
    destruct (HR _ _ _ _ Hc) as [Hh ->]. destruct (HR _ _ _ _ Hc') as [Hh' ->].
    assert (res = res') as -> by congruence. done.
  - intros c0 key h r cs Hc0 Hnd Hcs.
    by apply (waiters_share_the_leaders_query fl c0 key h r cs).
Qed.

(** ** The direct reader *)

(** X13: the direct reader sends one query per call and leaves the
    snapshot alone; it returns [nil] exactly for a row with
    [active = true], [featureInactive] exactly for a missing row or a row
    with [active = false], and the store's error otherwise; the handler of
    [/f1] answers 500 exactly in that last case. The wrapper around
    [featureActiveSF.Do] maps the same answer of the store to the same
    error. *)
Theorem direct_reader_outcome r w :
  queries (ensureFeatureActive r w).1 = S (queries w) ∧
  featureActiveCache (ensureFeatureActive r w).1 = featureActiveCache w ∧
  ((ensureFeatureActive r w).2 = None ↔ r = Row true) ∧
  ((ensureFeatureActive r w).2 = Some featureInactive ↔
     r = ErrNoRows ∨ r = Row false) ∧
  (∀ msg, (ensureFeatureActive r w).2 = Some (StoreError msg) ↔ r = RowError msg) ∧
  (∀ text, (handle_f1 r w).2 = InternalServerError text ↔ r = RowError text) ∧
  afterDo (isFeatureActive r w).2 = (ensureFeatureActive r w).2.
Proof.
  unfold handle_f1, ensureFeatureActive, afterDo, isFeatureActive.
  destruct r as [[]| |msg]; simpl; repeat split; try done;
    try naive_solver.
  unfold respond. simpl. by intros [= ->].
Qed.

(** ** What a refresh installs *)

Lemma iter_rows_table t : ∀ m, ∃ m',
  iter_rows ((λ na, Scanned na.1 na.2) <$> t) scan_feature m = (m', None) ∧
  ∀ n, (NoDup t.*1 → ∀ a, (n, a) ∈ t → m' !! n = Some a) ∧
       (n ∉ t.*1 → m' !! n = m !! n).
Proof.
  induction t as [|[n0 a0] t IH]; intros m.
  { exists m. split; [done|]. intros n. split; [|done].
    intros _ a Ha. by apply elem_of_nil in Ha. }
  destruct (IH (<[n0 := a0]> m)) as (m' & Hrun & Hm').
  exists m'. split; [by rewrite fmap_cons; simpl; rewrite Hrun|].
  intros n. destruct (Hm' n) as [Hin Hout]. split.
  - rewrite fmap_cons. simpl. intros [Hn0 Hnd]%NoDup_cons a [Heq|Ha]%elem_of_cons.
    + injection Heq as -> ->. rewrite (proj2 (Hm' n0) Hn0). apply lookup_insert_eq.
    + by apply Hin.
  - rewrite fmap_cons. simpl. intros Hn.
    rewrite Hout by set_solver. apply lookup_insert_ne. set_solver.
Qed.

(** The update on the rows of a table with distinct names. *)
Lemma updateFeatureActiveCache_table t w :
  NoDup t.*1 →
  updateFeatureActiveCache (table_rows t) w =
    (World (list_to_map t) (S (queries w)) (logged w) (refreshing w), None).
Proof.
  intros Hnd. unfold updateFeatureActiveCache, table_rows, Iter.
  destruct (iter_rows_table t ∅) as (m' & -> & Hm'). simpl. f_equal. f_equal.
  apply map_eq. intros n. destruct (Hm' n) as [Hin Hout].
  destruct (decide (n ∈ t.*1)) as [Hn|Hn].
  - apply list_elem_of_fmap in Hn as ([n' a] & -> & Ha). simpl in *.
    rewrite (Hin Hnd a Ha). symmetry. by apply elem_of_list_to_map_1.
  - rewrite (Hout Hn), lookup_empty. symmetry. by apply not_elem_of_list_to_map_1.
Qed.

(** X14: a refresh that reads the rows of a table with distinct names
    succeeds and installs exactly these rows as the new snapshot, whatever
    the old snapshot held: names that left the table are gone from the
    map. It sends one query. *)
Theorem refresh_installs_the_table t w :
  NoDup t.*1 →
  (updateFeatureActiveCache (table_rows t) w).2 = None ∧
  queries (updateFeatureActiveCache (table_rows t) w).1 = S (queries w) ∧
  ∀ name active,
    featureActiveCache (updateFeatureActiveCache (table_rows t) w).1 !! name =
      Some active ↔ (name, active) ∈ t.
Proof.
  intros Hnd. rewrite (updateFeatureActiveCache_table t w Hnd). simpl.
  split; [done|]. split; [done|].
  intros name active. symmetry. by apply elem_of_list_to_map.
Qed.

Lemma refresh_installs_the_table_witness :
  featureActiveCache
    (updateFeatureActiveCache (table_rows [("g", true); ("f", false)]%string) snapshot).1
    !! "f"%string = Some false.
Proof.
  destruct (refresh_installs_the_table [("g", true); ("f", false)]%string snapshot)
    as (_ & _ & H).
  - vm_compute. repeat constructor; intros H; inversion H as [|? ? ? H1]; subst;
      inversion H1.
  - apply H. right. left.
Defined.

Lemma table_row_lookup t name :
  table_row t name =
    match (list_to_map t : gmap string bool) !! name with
    | Some a => Row a
    | None => ErrNoRows
    end.
Proof.
  unfold table_row. induction t as [|[n a] t IH]; [done|].
  rewrite filter_cons. simpl. case_decide as Hn.
  - subst n. by rewrite lookup_insert_eq.
  - by rewrite lookup_insert_ne.
Qed.

(** X15: right after a refresh that succeeded on a table with distinct
    names, the snapshot reader returns for every feature the error that
    the direct reader returns when it queries the same table, and it does
    so without a query. *)
Theorem snapshot_agrees_with_direct_reader t w w0 feature :
  NoDup t.*1 →
  (ensureFeatureActiveWithCache feature
     (updateFeatureActiveCache (table_rows t) w).1).2 =
  (ensureFeatureActive (table_row t feature) w0).2.
Proof.
  intros Hnd. rewrite (updateFeatureActiveCache_table t w Hnd), table_row_lookup.
  unfold ensureFeatureActiveWithCache, ensureFeatureActive, isFeatureActive. simpl.
  by destruct (list_to_map t !! feature) as [[]|].
Qed.

Lemma snapshot_agrees_with_direct_reader_witness :
  (ensureFeatureActiveWithCache "f"
     (updateFeatureActiveCache (table_rows [("g", true); ("f", false)]%string) init).1).2 =
  (ensureFeatureActive (table_row [("g", true); ("f", false)]%string "f") init).2.
Proof.
  apply (snapshot_agrees_with_direct_reader [("g", true); ("f", false)]%string init init "f").
  vm_compute. repeat constructor; intros H; inversion H as [|? ? ? H1]; subst;
    inversion H1.
Defined.

(** ** Startup *)

(** X17: [startUpdateFeatureActiveCache] on a table with distinct names
    returns [nil] with the snapshot installed and the goroutine started, so
    that the first request to [/f3] already answers from the table: "ok"
    exactly when the table has the feature ["f"] active, "feature is not
    active" otherwise. When its first update fails it returns the error,
    starts no goroutine and leaves the snapshot as it was. *)
Theorem startup_installs_snapshot t q w :
  NoDup t.*1 →
  (startUpdateFeatureActiveCache (table_rows t) w).2 = None ∧
  refreshing (startUpdateFeatureActiveCache (table_rows t) w).1 = true ∧
  ((handle_f3 (startUpdateFeatureActiveCache (table_rows t) w).1).2 = Body "ok" ↔
     ("f"%string, true) ∈ t) ∧
  ((handle_f3 (startUpdateFeatureActiveCache (table_rows t) w).1).2 =
     Body "feature is not active" ↔ ("f"%string, true) ∉ t) ∧
  (∀ e, (updateFeatureActiveCache q w).2 = Some e →
     (startUpdateFeatureActiveCache q w).2 = Some e ∧
     refreshing (startUpdateFeatureActiveCache q w).1 = refreshing w ∧
     featureActiveCache (startUpdateFeatureActiveCache q w).1 = featureActiveCache w).
Proof.
  intros Hnd. unfold startUpdateFeatureActiveCache.
  rewrite (updateFeatureActiveCache_table t w Hnd). simpl.
  split; [done|]. split; [done|].
  unfold handle_f3, ensureFeatureActiveWithCache. simpl.
  pose proof (elem_of_list_to_map (M := gmap string) t "f"%string true Hnd) as Hf.
  repeat split.
  - intros H. apply Hf. by destruct (list_to_map t !! "f"%string) as [[]|].
  - intros H%Hf. by rewrite H.
  - intros H Hin%Hf. by rewrite Hin in H.
  - intros H. destruct (list_to_map t !! "f"%string) as [[]|] eqn:E; try done.
    exfalso. by apply H, Hf.
  - revert H. unfold updateFeatureActiveCache.
    destruct (Iter q scan_feature ∅) as [m [e'|]]; simpl; by intros [= ->].
  - revert H. unfold updateFeatureActiveCache.
    by destruct (Iter q scan_feature ∅) as [m [e'|]].
  - revert H. unfold updateFeatureActiveCache.
    by destruct (Iter q scan_feature ∅) as [m [e'|]].
Qed.

Lemma startup_installs_snapshot_witness :
  (handle_f3 (startUpdateFeatureActiveCache
                (table_rows [("f", true)]%string) init).1).2 = Body "ok".
Proof.
  destruct (startup_installs_snapshot [("f", true)]%string (QueryError "down") init)
    as (_ & _ & H & _).
  - vm_compute. repeat constructor. intros H. inversion H.
  - apply H. constructor.
Defined.

End SingleflightFacts.
